(** * Silt runtime: type-erased values and boxed objects

    A model of the value-representation layer of the Silt runtime:

    - [Runtime]: [Sources/Runtime] ([Box.h], [Box.cpp]), the [Value] class
      with its [WitnessTable] of copy / move / destroy operations, the
      trivial operations and the [silt_copyValue] / [silt_moveValue]
      entry points;
    - [Ferrite]: [Sources/Ferrite] ([Errors.cpp], [Heap.cpp],
      [ManagedObject.h], [ManagedObject.cpp]), the fatal-error reporter,
      the fail-fast allocator, [ManagedObject] and the empty-box singleton. *)

From Stdlib Require Import ZArith NArith Lia.
From Stdlib.Strings Require Import Ascii String Byte.
From stdpp Require Import base option list gmap strings.

Local Open Scope Z_scope.

(** ** Sources/Runtime *)

Module Runtime.

(** Pointers are addresses; [Value *] and [void *] are both addresses. *)
Abbreviation ptr := Z (only parsing).
Abbreviation byte := Byte.byte (only parsing).

(** [struct TypeMetadata { const StringRef name; const uint64_t sizeInBytes; }].
    Descriptors are immutable, so a [const TypeMetadata *] is modelled by the
    record it points to. *)
Record TypeMetadata := mkTypeMetadata {
  name : string;
  sizeInBytes : N
}.

(** *** The code of witness functions

    A witness function receives [Value *] arguments and can use the public
    interface of [Value] on them, which dispatches through the witness table
    stored in the object, and it can touch raw memory.  [Value] therefore
    refers to functions over [Value *]; to tie that knot the body of a
    function is a tree of the operations it performs, run by [run] below. *)
Inductive Code (A : Type) : Type :=
| Ret (a : A)
    (** [return a] *)
| GetTypeMetadata (v : ptr) (k : TypeMetadata -> Code A)
    (** [*v->getTypeMetadata()] *)
| GetValue (v : ptr) (k : ptr -> Code A)
    (** [v->getValue()] *)
| Memcpy (dst src : ptr) (n : N) (k : Code A)
    (** [memcpy(dst, src, n)] *)
| Load (p : ptr) (k : byte -> Code A)
    (** [*(char * )p] *)
| Store (p : ptr) (b : byte) (k : Code A)
    (** [*(char * )p = b] *)
| InvokeCopy (this dst src : ptr) (k : ptr -> Code A)
    (** [this->witnessTable.copy(dst, src)] *)
| InvokeMove (this dst src : ptr) (k : ptr -> Code A)
    (** [this->witnessTable.move(dst, src)] *)
| InvokeDestroy (this v : ptr) (k : Code A)
    (** [this->witnessTable.destroy(v)] *)
| Unreachable
    (** control flows off the end of a function that returns a value:
        undefined behaviour *).

Arguments Ret {A} a.
Arguments GetTypeMetadata {A} v k.
Arguments GetValue {A} v k.
Arguments Memcpy {A} dst src n k.
Arguments Load {A} p k.
Arguments Store {A} p b k.
Arguments InvokeCopy {A} this dst src k.
Arguments InvokeMove {A} this dst src k.
Arguments InvokeDestroy {A} this v k.
Arguments Unreachable {A}.

Fixpoint bind {A B : Type} (c : Code A) (f : A -> Code B) : Code B :=
  match c with
  | Ret a => f a
  | GetTypeMetadata v k => GetTypeMetadata v (fun x => bind (k x) f)
  | GetValue v k => GetValue v (fun x => bind (k x) f)
  | Memcpy d s n k => Memcpy d s n (bind k f)
  | Load p k => Load p (fun x => bind (k x) f)
  | Store p b k => Store p b (bind k f)
  | InvokeCopy t d s k => InvokeCopy t d s (fun x => bind (k x) f)
  | InvokeMove t d s k => InvokeMove t d s (fun x => bind (k x) f)
  | InvokeDestroy t v k => InvokeDestroy t v (bind k f)
  | Unreachable => Unreachable
  end.

#[export] Instance Code_ret : MRet Code := fun A a => Ret a.
#[export] Instance Code_bind : MBind Code := fun A B f c => bind c f.

(** [std::function<void *(Value *dst, Value *src)>]; [None] is the empty
    [std::function], whose call throws [std::bad_function_call]. *)
Definition SiltCopyFunction : Type := option (ptr -> ptr -> Code ptr).
Definition SiltMoveFunction : Type := SiltCopyFunction.
(** [std::function<void (Value *value)>] *)
Definition SiltDestroyFunction : Type := option (ptr -> Code unit).

Record WitnessTable := mkWitnessTable {
  copy : SiltCopyFunction;
  move : SiltMoveFunction;
  destroy : SiltDestroyFunction
}.

(** [class Value]: its three private members. *)
Record Value := mkValue {
  typeMetadata : TypeMetadata;
  witnessTable : WitnessTable;
  value : ptr
}.

(** [Value(const TypeMetadata *typeMetadata, const WitnessTable witnessTable)]:
    the member initialiser list names [typeMetadata] and [witnessTable]
    only.  The member [value] is not initialised, it keeps the bits
    [indeterminate] that the object's memory held before construction. *)
Definition Value_ctor (typeMetadata : TypeMetadata) (witnessTable : WitnessTable)
    (indeterminate : ptr) : Value :=
  {| typeMetadata := typeMetadata;
     witnessTable := witnessTable;
     value := indeterminate |}.

(** *** Program state *)

(** A dispatch through a slot of a witness table, with its arguments. *)
Inductive Invocation :=
| InvCopy (dst src : ptr)
| InvMove (dst src : ptr)
| InvDestroy (v : ptr).

(** [objs]: the live [Value] objects by address; [mem]: the allocated bytes
    of raw storage; [calls]: the dispatches made so far, oldest first (an
    instrumented witness table would record them). *)
Record State := mkState {
  objs : gmap Z Value;
  mem : gmap Z byte;
  calls : list Invocation
}.

Definition set_mem (m : gmap Z byte) (σ : State) : State :=
  {| objs := objs σ; mem := m; calls := calls σ |}.

Definition record_call (i : Invocation) (σ : State) : State :=
  {| objs := objs σ; mem := mem σ; calls := calls σ ++ [i] |}.

(** [new (p) Value(typeMetadata, witnessTable)]: the object constructed in
    the memory at [p], whose [value] member held [indeterminate]. *)
Definition construct_at (p : ptr) (typeMetadata : TypeMetadata)
    (witnessTable : WitnessTable) (indeterminate : ptr) (σ : State) : State :=
  {| objs := <[p := Value_ctor typeMetadata witnessTable indeterminate]> (objs σ);
     mem := mem σ;
     calls := calls σ |}.

(** The [n] bytes at [p], when all of them are allocated. *)
Fixpoint load_bytes (m : gmap Z byte) (p : ptr) (n : nat) : option (list byte) :=
  match n with
  | O => Some []
  | S n' =>
      match m !! p, load_bytes m (p + 1) n' with
      | Some b, Some bs => Some (b :: bs)
      | _, _ => None
      end
  end.

Fixpoint store_bytes (m : gmap Z byte) (p : ptr) (bs : list byte) : gmap Z byte :=
  match bs with
  | [] => m
  | b :: bs' => <[p := b]> (store_bytes m (p + 1) bs')
  end.

(** The regions [[p, p + n)] and [[q, q + n)] have no byte in common. *)
Definition disjoint (p q : ptr) (n : nat) : Prop :=
  n = O \/ p + Z.of_nat n <= q \/ q + Z.of_nat n <= p.

#[export] Instance disjoint_dec p q n : Decision (disjoint p q n).
Proof. unfold disjoint. apply _. Defined.

(** [memcpy(dst, src, n)]: both regions must be allocated and must not
    overlap, otherwise the behaviour is undefined ([None]). *)
Definition memcpy (m : gmap Z byte) (dst src : ptr) (n : N) : option (gmap Z byte) :=
  match load_bytes m src (N.to_nat n), load_bytes m dst (N.to_nat n) with
  | Some bs, Some _ =>
      if decide (disjoint dst src (N.to_nat n)) then Some (store_bytes m dst bs)
      else None
  | _, _ => None
  end.

Inductive outcome (A : Type) : Type :=
| Done (a : A) (σ : State)   (** returned [a] *)
| Undefined                  (** undefined behaviour *)
| BadFunctionCall            (** [std::bad_function_call] was thrown *)
| OutOfFuel                  (** call depth exhausted *).

Arguments Done {A} a σ.
Arguments Undefined {A}.
Arguments BadFunctionCall {A}.
Arguments OutOfFuel {A}.

Definition and_then {A B : Type} (o : outcome A) (k : A -> State -> outcome B)
    : outcome B :=
  match o with
  | Done a σ => k a σ
  | Undefined => Undefined
  | BadFunctionCall => BadFunctionCall
  | OutOfFuel => OutOfFuel
  end.

(** [run fuel c σ] executes [c] from [σ]; [fuel] bounds the depth of nested
    calls through witness tables. *)
Fixpoint run (fuel : nat) (A : Type) {struct fuel} : Code A -> State -> outcome A :=
  fix go (c : Code A) (σ : State) {struct c} : outcome A :=
    match c with
    | Ret a => Done a σ
    | GetTypeMetadata v k =>
        match objs σ !! v with
        | Some o => go (k (typeMetadata o)) σ
        | None => Undefined
        end
    | GetValue v k =>
        match objs σ !! v with
        | Some o => go (k (value o)) σ
        | None => Undefined
        end
    | Memcpy d s n k =>
        match memcpy (mem σ) d s n with
        | Some m' => go k (set_mem m' σ)
        | None => Undefined
        end
    | Load p k =>
        match mem σ !! p with
        | Some b => go (k b) σ
        | None => Undefined
        end
    | Store p b k =>
        match mem σ !! p with
        | Some _ => go k (set_mem (<[p := b]> (mem σ)) σ)
        | None => Undefined
        end
    | InvokeCopy this d s k =>
        match fuel, objs σ !! this with
        | O, _ => OutOfFuel
        | _, None => Undefined
        | S fuel', Some o =>
            match copy (witnessTable o) with
            | None => BadFunctionCall
            | Some f =>
                and_then (run fuel' ptr (f d s) (record_call (InvCopy d s) σ))
                         (fun r σ' => go (k r) σ')
            end
        end
    | InvokeMove this d s k =>
        match fuel, objs σ !! this with
        | O, _ => OutOfFuel
        | _, None => Undefined
        | S fuel', Some o =>
            match move (witnessTable o) with
            | None => BadFunctionCall
            | Some f =>
                and_then (run fuel' ptr (f d s) (record_call (InvMove d s) σ))
                         (fun r σ' => go (k r) σ')
            end
        end
    | InvokeDestroy this v k =>
        match fuel, objs σ !! this with
        | O, _ => OutOfFuel
        | _, None => Undefined
        | S fuel', Some o =>
            match destroy (witnessTable o) with
            | None => BadFunctionCall
            | Some f =>
                and_then (run fuel' unit (f v) (record_call (InvDestroy v) σ))
                         (fun _ σ' => go k σ')
            end
        end
    | Unreachable => Undefined
    end.

Arguments run fuel {A} c σ.

(** *** Box.h: the member functions of [Value] *)

Definition getTypeMetadata (this : ptr) : Code TypeMetadata :=
  GetTypeMetadata this Ret.

Definition getValue (this : ptr) : Code ptr :=
  GetValue this Ret.

(** [void copy(Value *dst) { witnessTable.copy(dst, this); }] *)
Definition Value_copy (this dst : ptr) : Code unit :=
  InvokeCopy this dst this (fun _ => Ret tt).

(** [void move(Value *dst) { witnessTable.move(dst, this); }] *)
Definition Value_move (this dst : ptr) : Code unit :=
  InvokeMove this dst this (fun _ => Ret tt).

(** [void destroy() { witnessTable.destroy(this); }] *)
Definition Value_destroy (this : ptr) : Code unit :=
  InvokeDestroy this this (Ret tt).

(** [void initializeWithCopy(Value *value) { value->copy(this); }] *)
Definition initializeWithCopy (this value : ptr) : Code unit :=
  Value_copy value this.

(** [void initializeWithTake(Value *value) { value->move(this); value->destroy(); }] *)
Definition initializeWithTake (this value : ptr) : Code unit :=
  _ ← Value_move value this;
  Value_destroy value.

(** *** Box.cpp *)

(** [srcBox->copy(dstBox); return dstBox;] *)
Definition silt_copyValue (dst src : ptr) : Code ptr :=
  _ ← Value_copy src dst;
  mret dst.

(** [srcBox->move(dstBox); return dstBox;] *)
Definition silt_moveValue (dst src : ptr) : Code ptr :=
  _ ← Value_move src dst;
  mret dst.

(** [size_t size = dst->getTypeMetadata()->sizeInBytes;
     memcpy(dst->getValue(), src->getValue(), size);
     return dst;] *)
Definition trivialCopy (dst src : ptr) : Code ptr :=
  md ← getTypeMetadata dst;
  let size := sizeInBytes md in
  d ← getValue dst;
  s ← getValue src;
  _ ← Memcpy d s size (Ret tt);
  mret dst.

(** [size_t size = dst->getTypeMetadata()->sizeInBytes;
     memcpy(dst->getValue(), src->getValue(), size);
     src->destroy();
     return dst;] *)
Definition trivialMove (dst src : ptr) : Code ptr :=
  md ← getTypeMetadata dst;
  let size := sizeInBytes md in
  d ← getValue dst;
  s ← getValue src;
  _ ← Memcpy d s size (Ret tt);
  _ ← Value_destroy src;
  mret dst.

(** [void *trivialDestroy(Value *value) { }]: the function is declared to
    return a [void *] and its body has no [return]; control flows off the
    end of a function that returns a value, which is undefined, whether or
    not the caller reads the result. *)
Definition trivialDestroy (value : ptr) : Code unit :=
  Unreachable.

(** The operation table of a trivial type. *)
Definition trivialWitnessTable : WitnessTable :=
  {| copy := Some trivialCopy;
     move := Some trivialMove;
     destroy := Some trivialDestroy |}.

(** *** Counting dispatches *)

Definition is_copy (i : Invocation) : bool :=
  match i with InvCopy _ _ => true | _ => false end.

Definition is_move (i : Invocation) : bool :=
  match i with InvMove _ _ => true | _ => false end.

Definition is_destroy_of (v : ptr) (i : Invocation) : bool :=
  match i with InvDestroy w => bool_decide (w = v) | _ => false end.

Definition count (p : Invocation -> bool) (l : list Invocation) : nat :=
  length (List.filter p l).

(** The dispatches that [o] made beyond the first [n] recorded ones. *)
Definition new_calls {A : Type} (n : nat) (o : outcome A) : list Invocation :=
  match o with
  | Done _ σ => drop n (calls σ)
  | _ => []
  end.

(** *** A concrete scenario: a pair of 8-byte integers

    The type has size 16.  The source object lives at address 100 over the
    storage at 1000, which holds (3, 4) in little-endian order; the
    destination object lives at 200 over the storage at 2000, which is
    allocated and holds no meaningful bytes yet. *)

Definition pairMetadata : TypeMetadata :=
  {| name := "Pair"; sizeInBytes := 16 |}.

Definition bytes_3_4 : list byte :=
  [x03; x00; x00; x00; x00; x00; x00; x00;
   x04; x00; x00; x00; x00; x00; x00; x00].

Definition pair_state (table : WitnessTable) : State :=
  {| objs := <[100 := mkValue pairMetadata table 1000]>
             (<[200 := mkValue pairMetadata table 2000]> ∅);
     mem := store_bytes (store_bytes ∅ 2000 (replicate 16 xff)) 1000 bytes_3_4;
     calls := [] |}.

(** A table whose move is the flat byte copy alone: [SiltMoveFunction] is
    [SiltCopyFunction], so [trivialCopy] fits the slot. *)
Definition flatMoveWitnessTable : WitnessTable :=
  {| copy := Some trivialCopy;
     move := Some trivialCopy;
     destroy := Some trivialDestroy |}.

(** A destroy operation with an empty body that returns: a function of
    type [void (Value * )] that does nothing. *)
Definition returningDestroy (value : ptr) : Code unit :=
  Ret tt.

(** The trivial copy and the trivial move, with a destroy that returns. *)
Definition returningDestroyWitnessTable : WitnessTable :=
  {| copy := Some trivialCopy;
     move := Some trivialMove;
     destroy := Some returningDestroy |}.

(** A copy operation of a type that keeps a "shared" flag in the first byte
    of its representation: copying sets the flag in the source, then copies
    the bytes. *)
Definition sharingCopy (dst src : ptr) : Code ptr :=
  s ← getValue src;
  _ ← Store s x01 (Ret tt);
  trivialCopy dst src.

Definition sharingWitnessTable : WitnessTable :=
  {| copy := Some sharingCopy;
     move := Some trivialMove;
     destroy := Some trivialDestroy |}.

End Runtime.

(** ** Sources/Ferrite *)

Module Ferrite.

(** The objects with static storage of ManagedObject.cpp. *)
Inductive global :=
| g_EmptyBoxStorage
| g_emptyBoxStorageMetadata.

(** A pointer is null, the address of a static object, or the address of a
    block handed out by [malloc]. *)
Inductive ptr :=
| nullptr
| GlobalAddr (g : global)
| HeapAddr (b : N).

#[export] Instance global_eq_dec : EqDecision global.
Proof. solve_decision. Defined.

#[export] Instance ptr_eq_dec : EqDecision ptr.
Proof. solve_decision. Defined.

#[export] Instance ptr_countable : Countable ptr.
Proof.
  refine (inj_countable'
    (fun p => match p with
              | nullptr => inl ()
              | GlobalAddr g_EmptyBoxStorage => inr (inl true)
              | GlobalAddr g_emptyBoxStorageMetadata => inr (inl false)
              | HeapAddr b => inr (inr b)
              end)
    (fun x => match x with
              | inl _ => nullptr
              | inr (inl true) => GlobalAddr g_EmptyBoxStorage
              | inr (inl false) => GlobalAddr g_emptyBoxStorageMetadata
              | inr (inr b) => HeapAddr b
              end) _).
  by intros [|[]|].
Defined.

Definition newline : string := String "010"%char EmptyString.

Section WithWorld.

(** The memory that copy and destroy closures keep their data in. *)
Context {W : Type}.

(** [std::function<void *(void * )>].  A [std::function] object holds a
    target, a piece of code with the data it has captured, or it is empty.
    [None] is the empty [std::function] (one built from [nullptr]), whose
    call throws [std::bad_function_call]; [Some t] holds the target named
    [t], and what that target does when it is called is given by
    [copy_target] below.  Copying a [std::function] copies the name. *)
Definition SiltCopyFunction : Type := option N.

(** [std::function<void (void * )>]; its targets are given by
    [destroy_target] below. *)
Definition SiltDestroyFunction : Type := option N.

(** [template <typename T> struct ManagedObject], at [T = void]
    ([OpaqueMetadata]). *)
Record ManagedObject := mkManagedObject {
  copyImpl : SiltCopyFunction;
  destroyImpl : SiltDestroyFunction;
  metadata : ptr;
  value : ptr
}.

(** [ManagedObject(copyImpl, destroyImpl, metadata, value):
      copyImpl(copyImpl), destroyImpl(destroyImpl),
      metadata(metadata), value(value) {}] *)
Definition ManagedObject_ctor (copyImpl : SiltCopyFunction)
    (destroyImpl : SiltDestroyFunction) (metadata value : ptr) : ManagedObject :=
  {| copyImpl := copyImpl; destroyImpl := destroyImpl;
     metadata := metadata; value := value |}.

(** [struct _SiltEmptyBox { silt::OpaqueMetadata header; }] *)
Record _SiltEmptyBox := mk_SiltEmptyBox {
  header : ManagedObject
}.

(** The state of the process: the closures' memory, the blocks that
    [malloc] handed out with their sizes, what was written to [stderr], and
    the [ManagedObject]s by address (the address of a [_SiltEmptyBox] is the
    address of its [header]). *)
Record Process := mkProcess {
  world : W;
  heap : gmap N N;
  stderr : string;
  objects : gmap ptr ManagedObject
}.

Inductive outcome (A : Type) : Type :=
| Returned (a : A) (σ : Process)  (** control came back with [a] *)
| Aborted (σ : Process)           (** [abort()] ended the process *)
| Thrown (σ : Process)            (** [std::bad_function_call] was thrown *)
| Undefined                       (** undefined behaviour *).

Arguments Returned {A} a σ.
Arguments Aborted {A} σ.
Arguments Thrown {A} σ.
Arguments Undefined {A}.

Definition M (A : Type) : Type := Process -> outcome A.

#[export] Instance M_ret : MRet M := fun A a σ => Returned a σ.

#[export] Instance M_bind : MBind M := fun A B f m σ =>
  match m σ with
  | Returned a σ' => f a σ'
  | Aborted σ' => Aborted σ'
  | Thrown σ' => Thrown σ'
  | Undefined => Undefined
  end.

(** *** Errors.cpp *)

(** [fputs(s, stderr)] *)
Definition fputs (s : string) : M unit := fun σ =>
  Returned tt {| world := world σ; heap := heap σ;
                 stderr := stderr σ +:+ s; objects := objects σ |}.

(** [fputc(c, stderr)] *)
Definition fputc (c : Ascii.ascii) : M unit := fun σ =>
  Returned tt {| world := world σ; heap := heap σ;
                 stderr := stderr σ +:+ String c EmptyString;
                 objects := objects σ |}.

(** [abort()] *)
Definition abort : M unit := fun σ => Aborted σ.

(** [fputs(message, stderr); fputc('\n', stderr); abort();] *)
Definition crash (message : string) : M unit :=
  _ ← fputs message;
  _ ← fputc "010"%char;
  abort.

(** *** Heap.cpp *)

(** [malloc] of the C library: given the requested size and the blocks in
    use, the pointer it returns and the blocks in use afterwards. *)
Variable malloc : N -> gmap N N -> ptr * gmap N N.

(** What the C standard promises of [malloc]: it returns a null pointer and
    allocates nothing, or the address of a block that was not in use and
    now is, with the requested size. *)
Definition malloc_contract : Prop :=
  forall (n : N) (h : gmap N N),
    match malloc n h with
    | (nullptr, h') => h' = h
    | (HeapAddr b, h') => h !! b = None /\ h' = <[b := n]> h
    | (GlobalAddr _, _) => False
    end.

Definition call_malloc (bytes : N) : M ptr := fun σ =>
  let '(p, h') := malloc bytes (heap σ) in
  Returned p {| world := world σ; heap := h';
                stderr := stderr σ; objects := objects σ |}.

(** [auto ptr = malloc(bytes);
     if (ptr == nullptr) { silt::crash("silt_alloc failed to allocate memory"); }
     return ptr;] *)
Definition silt_alloc (bytes : N) : M ptr :=
  ptr ← call_malloc bytes;
  _ ← (if decide (ptr = nullptr)
       then crash "silt_alloc failed to allocate memory"
       else mret tt);
  mret ptr.

(** *** ManagedObject.h *)

(** What the targets of the closures do.  A target is any code: called on
    a pointer it may change the whole process (the closures' memory, the
    heap, [stderr], and the managed objects, whose members are public), and
    it returns, throws, aborts the process or has undefined behaviour. *)
Variable copy_target : N -> ptr -> M ptr.
Variable destroy_target : N -> ptr -> M unit.

Definition deref (p : ptr) : M ManagedObject := fun σ =>
  match objects σ !! p with
  | Some o => Returned o σ
  | None => Undefined
  end.

(** The call [f(v)] of a copy closure. *)
Definition call_copy (f : SiltCopyFunction) (v : ptr) : M ptr :=
  match f with
  | Some t => copy_target t v
  | None => fun σ => Thrown σ
  end.

(** The call [f(v)] of a destroy closure. *)
Definition call_destroy (f : SiltDestroyFunction) (v : ptr) : M unit :=
  match f with
  | Some t => destroy_target t v
  | None => fun σ => Thrown σ
  end.

(** C++ leaves open in which order the arguments of a constructor call are
    evaluated.  In [ManagedObject(copyImpl, destroyImpl, metadata,
    copyImpl(this->value))] each of the first three arguments is a read of a
    member of [*this], which comes before or after the call in the fourth;
    an [ArgOrder] says, member by member, whether the read comes first. *)
Record ArgOrder := mkArgOrder {
  copyImpl_first : bool;
  destroyImpl_first : bool;
  metadata_first : bool
}.

(** [return ManagedObject(copyImpl, destroyImpl, metadata, copyImpl(this->value));]
    The call reads [this->copyImpl] and [this->value] as it is made;
    [before] is [*this] at that point and [after] is [*this] once the call
    has returned. *)
Definition ManagedObject_copy (order : ArgOrder) (this : ptr) : M ManagedObject :=
  before ← deref this;
  v ← call_copy (copyImpl before) (value before);
  after ← (if copyImpl_first order && destroyImpl_first order && metadata_first order
           then mret before
           else deref this);
  mret (ManagedObject_ctor
          (copyImpl (if copyImpl_first order then before else after))
          (destroyImpl (if destroyImpl_first order then before else after))
          (metadata (if metadata_first order then before else after))
          v).

(** [destroyImpl(this->value);] *)
Definition ManagedObject_destroy (this : ptr) : M unit :=
  o ← deref this;
  call_destroy (destroyImpl o) (value o).

(** *** ManagedObject.cpp *)

(** [silt::OpaqueMetadata _emptyBoxStorageMetadata(nullptr, nullptr, nullptr, nullptr);] *)
Definition _emptyBoxStorageMetadata : ManagedObject :=
  ManagedObject_ctor None None nullptr nullptr.

(** [_SiltEmptyBox _EmptyBoxStorage = { _emptyBoxStorageMetadata, };] *)
Definition _EmptyBoxStorage : _SiltEmptyBox :=
  {| header := _emptyBoxStorageMetadata |}.

(** The process once its static objects are initialised. *)
Definition initial (w : W) : Process :=
  {| world := w;
     heap := ∅;
     stderr := "";
     objects :=
       <[GlobalAddr g_EmptyBoxStorage := header _EmptyBoxStorage]>
       (<[GlobalAddr g_emptyBoxStorageMetadata := _emptyBoxStorageMetadata]> ∅) |}.

(** [auto OpaqueMetadata = reinterpret_cast<silt::OpaqueMetadata*>(&_EmptyBoxStorage);
     //  swift_retain(OpaqueMetadata);
     return OpaqueMetadata;] *)
Definition silt_allocEmptyBox : M ptr :=
  let OpaqueMetadata := GlobalAddr g_EmptyBoxStorage in
  mret OpaqueMetadata.

(** [n] calls of [silt_allocEmptyBox] in a row, with their results. *)
Fixpoint acquire_n (n : nat) : M (list ptr) :=
  match n with
  | O => mret []
  | S n' =>
      p ← silt_allocEmptyBox;
      ps ← acquire_n n';
      mret (p :: ps)
  end.

End WithWorld.

Arguments Process W : clear implicits.
Arguments Returned {W A} a σ.
Arguments Aborted {W A} σ.
Arguments Thrown {W A} σ.
Arguments Undefined {W A}.

(** *** A [malloc] with a bounded arena

    It hands out blocks numbered from 1 upwards while the bytes in use stay
    within [capacity], and returns a null pointer beyond that. *)

Definition bytes_in_use (h : gmap N N) : N :=
  map_fold (fun _ n acc => (n + acc)%N) 0%N h.

Definition fresh_block (h : gmap N N) : N :=
  N.succ (map_fold (fun b _ acc => N.max b acc) 0%N h).

Definition bounded_malloc (capacity : N) (n : N) (h : gmap N N) : ptr * gmap N N :=
  if decide (bytes_in_use h + n <= capacity)%N
  then (HeapAddr (fresh_block h), <[fresh_block h := n]> h)
  else (nullptr, h).

(** *** Boxed 64-bit counters

    The closures' memory maps a cell number to its content.  Target 0
    copies a cell into the next free cell and destroys a cell by removing
    it.  Copy target 1 is a deep copy that first takes 64 bytes from
    [silt_alloc], here over an arena that has no room left.  Copy target 2
    hands the value over: it returns the pointer it was given and clears
    the [value] member of the object at [HeapAddr 11], from which it was
    taken.  Every other target throws. *)

Definition cellCopy (p : ptr) (w : gmap N N) : ptr * gmap N N :=
  match p with
  | HeapAddr c =>
      let c' := fresh_block w in
      (HeapAddr c', <[c' := default 0%N (w !! c)]> w)
  | _ => (nullptr, w)
  end.

Definition cellDestroy (p : ptr) (w : gmap N N) : gmap N N :=
  match p with
  | HeapAddr c => delete c w
  | _ => w
  end.

Definition clear_value (o : ManagedObject) : ManagedObject :=
  ManagedObject_ctor (copyImpl o) (destroyImpl o) (metadata o) nullptr.

Definition cell_copy_target (t : N) (v : ptr) : @M (gmap N N) ptr :=
  match t with
  | 0%N => fun σ =>
      let '(r, w') := cellCopy v (world σ) in
      Returned r {| world := w'; heap := heap σ;
                    stderr := stderr σ; objects := objects σ |}
  | 1%N =>
      p ← silt_alloc (bounded_malloc 0) 64;
      mret p
  | 2%N => fun σ =>
      Returned v {| world := world σ; heap := heap σ; stderr := stderr σ;
                    objects := alter clear_value (HeapAddr 11) (objects σ) |}
  | _ => fun σ => Thrown σ
  end.

Definition cell_destroy_target (t : N) (v : ptr) : @M (gmap N N) unit :=
  match t with
  | 0%N => fun σ =>
      Returned tt {| world := cellDestroy v (world σ); heap := heap σ;
                     stderr := stderr σ; objects := objects σ |}
  | _ => fun σ => Thrown σ
  end.

Definition boxedCell : ManagedObject :=
  ManagedObject_ctor (Some 0%N) (Some 0%N) nullptr (HeapAddr 1).

Definition deepCopyBox : ManagedObject :=
  ManagedObject_ctor (Some 1%N) (Some 0%N) nullptr (HeapAddr 1).

Definition handOverBox : ManagedObject :=
  ManagedObject_ctor (Some 2%N) (Some 0%N) nullptr (HeapAddr 1).

Definition cell_process : Process (gmap N N) :=
  {| world := {[ 1%N := 42%N ]};
     heap := ∅;
     stderr := "";
     objects := <[HeapAddr 9 := boxedCell]>
                (<[HeapAddr 10 := deepCopyBox]>
                 (<[HeapAddr 11 := handOverBox]>
                  (objects (initial (∅ : gmap N N))))) |}.

(** The constructor arguments evaluated left to right, and right to left. *)
Definition left_to_right : ArgOrder := mkArgOrder true true true.
Definition right_to_left : ArgOrder := mkArgOrder false false false.

End Ferrite.

(** ** Sources/Runtime, continued: [silt_destroyValue] *)

Module RuntimeBoundary.
Import Runtime.

(** [delete box]: [Value] has no destructor of its own, so the object is
    released and the storage that [value] points to is not.  Deleting what
    is not a live object is undefined.  So is deleting an object that was
    not made by [new]; the state does not record how an object was made,
    so the cases in which this returns include all those in which the
    source does. *)
Definition delete_Value (box : ptr) (σ : State) : outcome unit :=
  match objs σ !! box with
  | Some _ =>
      Done tt {| objs := delete box (objs σ); mem := mem σ; calls := calls σ |}
  | None => Undefined
  end.

(** [auto box = reinterpret_cast<silt::Value *>(value);
     box->destroy();
     delete box;]
    An entry point for the users of the runtime; [fuel] bounds the depth of
    the calls below [box->destroy()]. *)
Definition silt_destroyValue (fuel : nat) (value : ptr) (σ : State) : outcome unit :=
  and_then (run fuel (Value_destroy value) σ)
           (fun _ σ' => delete_Value value σ').

(** *** Scenarios *)

(** An operation that copies the bytes and returns a null pointer instead
    of the destination. *)
Definition copyReturningNull (dst src : ptr) : Code ptr :=
  _ ← trivialCopy dst src;
  mret 0.

Definition nullReturningWitnessTable : WitnessTable :=
  {| copy := Some copyReturningNull;
     move := Some copyReturningNull;
     destroy := Some trivialDestroy |}.

(** A table none of whose slots is bound. *)
Definition emptyWitnessTable : WitnessTable :=
  {| copy := None; move := None; destroy := None |}.

Definition wordMetadata : TypeMetadata :=
  {| name := "Word"; sizeInBytes := 8 |}.

(** The pair at 100 over the storage at 1000, as in [pair_state], and at 200
    an object of the 8-byte type with the unbound table, over the storage at
    2000. *)
Definition mismatch_state : State :=
  {| objs := <[100 := mkValue pairMetadata trivialWitnessTable 1000]>
             (<[200 := mkValue wordMetadata emptyWitnessTable 2000]> ∅);
     mem := store_bytes (store_bytes ∅ 2000 (replicate 16 xff)) 1000 bytes_3_4;
     calls := [] |}.

(** Three pairs with the trivial copy and move and a destroy that returns,
    at 100, 200 and 300, over the storages at 1000 (holding (3, 4)), 2000
    and 3000. *)
Definition chain_state : State :=
  {| objs := <[100 := mkValue pairMetadata returningDestroyWitnessTable 1000]>
             (<[200 := mkValue pairMetadata returningDestroyWitnessTable 2000]>
              (<[300 := mkValue pairMetadata returningDestroyWitnessTable 3000]> ∅));
     mem := store_bytes
              (store_bytes (store_bytes ∅ 3000 (replicate 16 xff))
                 2000 (replicate 16 xff))
              1000 bytes_3_4;
     calls := [] |}.

End RuntimeBoundary.

(** ** Sources/Ferrite, continued: [silt_dealloc] *)

Module FerriteHeap.
Import Ferrite.

Section WithWorld.

Context {W : Type}.

(** [free] of the C library: a null pointer is ignored, a block in use is
    released, anything else is undefined. *)
Definition call_free (p : ptr) : M unit := fun σ : Process W =>
  match p with
  | nullptr => Returned tt σ
  | HeapAddr b =>
      match heap σ !! b with
      | Some _ =>
          Returned tt {| world := world σ; heap := delete b (heap σ);
                         stderr := stderr σ; objects := objects σ |}
      | None => Undefined
      end
  | GlobalAddr _ => Undefined
  end.

(** [free(value);] *)
Definition silt_dealloc (value : ptr) : M unit :=
  call_free value.

End WithWorld.

End FerriteHeap.

(** ** Facts about Sources/Runtime *)

Module RuntimeFacts.
Import Runtime.

(** *** Raw memory *)

Lemma store_bytes_lookup_outside (m : gmap Z byte) p bs q :
  q < p \/ p + Z.of_nat (List.length bs) <= q ->
  store_bytes m p bs !! q = m !! q.
Proof.
  revert p. induction bs as [|b bs IH]; intros p Hq; simpl in *; [done|].
  rewrite lookup_insert_ne by lia. apply IH. lia.
Qed.

Lemma load_bytes_length (m : gmap Z byte) p n bs :
  load_bytes m p n = Some bs -> List.length bs = n.
Proof.
  revert p bs. induction n as [|n IH]; intros p bs; simpl.
  - by intros [= <-].
  - destruct (m !! p); [|done].
    destruct (load_bytes m (p + 1) n) eqn:E; [|done].
    intros [= <-]. simpl. f_equal. eauto.
Qed.

Lemma load_bytes_ext (m1 m2 : gmap Z byte) p n :
  (forall q, p <= q < p + Z.of_nat n -> m1 !! q = m2 !! q) ->
  load_bytes m1 p n = load_bytes m2 p n.
Proof.
  revert p. induction n as [|n IH]; intros p H; simpl; [done|].
  rewrite (H p) by lia. rewrite (IH (p + 1)); [done|].
  intros q Hq. apply H. lia.
Qed.

Lemma load_bytes_store_same (m : gmap Z byte) p bs :
  load_bytes (store_bytes m p bs) p (List.length bs) = Some bs.
Proof.
  revert p. induction bs as [|b bs IH]; intros p; simpl; [done|].
  rewrite lookup_insert_eq.
  rewrite (load_bytes_ext _ (store_bytes m (p + 1) bs)).
  - by rewrite IH.
  - intros q Hq. apply lookup_insert_ne. lia.
Qed.

Lemma load_bytes_store_disjoint (m : gmap Z byte) p bs q n :
  disjoint p q n -> List.length bs = n ->
  load_bytes (store_bytes m p bs) q n = load_bytes m q n.
Proof.
  intros Hd Hl. apply load_bytes_ext. intros r Hr.
  apply store_bytes_lookup_outside. unfold disjoint in Hd. lia.
Qed.

Lemma memcpy_ok (m : gmap Z byte) dst src n bs :
  load_bytes m src (N.to_nat n) = Some bs ->
  is_Some (load_bytes m dst (N.to_nat n)) ->
  disjoint dst src (N.to_nat n) ->
  memcpy m dst src n = Some (store_bytes m dst bs).
Proof.
  intros Hs [old Hd] Hdis. unfold memcpy. rewrite Hs, Hd.
  by rewrite decide_True.
Qed.

(** *** The interpreter *)

Lemma run_unfold {A} fuel (c : Code A) σ :
  run fuel c σ =
  match c with
  | Ret a => Done a σ
  | GetTypeMetadata v k =>
      match objs σ !! v with
      | Some o => run fuel (k (typeMetadata o)) σ
      | None => Undefined
      end
  | GetValue v k =>
      match objs σ !! v with
      | Some o => run fuel (k (value o)) σ
      | None => Undefined
      end
  | Memcpy d s n k =>
      match memcpy (mem σ) d s n with
      | Some m' => run fuel k (set_mem m' σ)
      | None => Undefined
      end
  | Load p k =>
      match mem σ !! p with
      | Some b => run fuel (k b) σ
      | None => Undefined
      end
  | Store p b k =>
      match mem σ !! p with
      | Some _ => run fuel k (set_mem (<[p := b]> (mem σ)) σ)
      | None => Undefined
      end
  | InvokeCopy this d s k =>
      match fuel, objs σ !! this with
      | O, _ => OutOfFuel
      | _, None => Undefined
      | S fuel', Some o =>
          match copy (witnessTable o) with
          | None => BadFunctionCall
          | Some f =>
              and_then (run fuel' (f d s) (record_call (InvCopy d s) σ))
                       (fun r σ' => run fuel (k r) σ')
          end
      end
  | InvokeMove this d s k =>
      match fuel, objs σ !! this with
      | O, _ => OutOfFuel
      | _, None => Undefined
      | S fuel', Some o =>
          match move (witnessTable o) with
          | None => BadFunctionCall
          | Some f =>
              and_then (run fuel' (f d s) (record_call (InvMove d s) σ))
                       (fun r σ' => run fuel (k r) σ')
          end
      end
  | InvokeDestroy this v k =>
      match fuel, objs σ !! this with
      | O, _ => OutOfFuel
      | _, None => Undefined
      | S fuel', Some o =>
          match destroy (witnessTable o) with
          | None => BadFunctionCall
          | Some f =>
              and_then (run fuel' (f v) (record_call (InvDestroy v) σ))
                       (fun _ σ' => run fuel k σ')
          end
      end
  | Unreachable => Undefined
  end.
Proof. destruct fuel, c; reflexivity. Qed.

Lemma run_bind {A B} fuel (c : Code A) (f : A -> Code B) σ :
  run fuel (bind c f) σ = and_then (run fuel c σ) (fun a σ' => run fuel (f a) σ').
Proof.
  revert σ. induction c as [a|v k IH|v k IH|d s n k IH|p k IH|p b k IH
                            |t d s k IH|t d s k IH|t v k IH|]; intros σ; simpl bind.
  - by rewrite (run_unfold fuel (Ret a)).
  - rewrite (run_unfold fuel (GetTypeMetadata v _)),
            (run_unfold fuel (GetTypeMetadata v k)).
    destruct (objs σ !! v); [apply IH|done].
  - rewrite (run_unfold fuel (GetValue v _)), (run_unfold fuel (GetValue v k)).
    destruct (objs σ !! v); [apply IH|done].
  - rewrite (run_unfold fuel (Memcpy d s n _)), (run_unfold fuel (Memcpy d s n k)).
    destruct (memcpy (mem σ) d s n); [apply IH|done].
  - rewrite (run_unfold fuel (Load p _)), (run_unfold fuel (Load p k)).
    destruct (mem σ !! p); [apply IH|done].
  - rewrite (run_unfold fuel (Store p b _)), (run_unfold fuel (Store p b k)).
    destruct (mem σ !! p); [apply IH|done].
  - rewrite (run_unfold fuel (InvokeCopy t d s _)),
            (run_unfold fuel (InvokeCopy t d s k)).
    destruct fuel as [|fuel']; [done|].
    destruct (objs σ !! t) as [o|]; [|done].
    destruct (copy (witnessTable o)) as [g|]; [|done].
    destruct (run fuel' (g d s) _); simpl; [apply IH|done..].
  - rewrite (run_unfold fuel (InvokeMove t d s _)),
            (run_unfold fuel (InvokeMove t d s k)).
    destruct fuel as [|fuel']; [done|].
    destruct (objs σ !! t) as [o|]; [|done].
    destruct (move (witnessTable o)) as [g|]; [|done].
    destruct (run fuel' (g d s) _); simpl; [apply IH|done..].
  - rewrite (run_unfold fuel (InvokeDestroy t v _)),
            (run_unfold fuel (InvokeDestroy t v k)).
    destruct fuel as [|fuel']; [done|].
    destruct (objs σ !! t) as [o|]; [|done].
    destruct (destroy (witnessTable o)) as [g|]; [|done].
    destruct (run fuel' (g v) _); simpl; [apply IH|done..].
  - by rewrite (run_unfold fuel (@Unreachable B)), (run_unfold fuel (@Unreachable A)).
Qed.

(** No operation of [Code] creates, deletes or assigns a [Value] object:
    whatever the witness tables hold, a run that returns leaves every
    object's descriptor, table and storage pointer as they were. *)
Lemma run_objs fuel : forall {A} (c : Code A) σ a σ',
  run fuel c σ = Done a σ' -> objs σ' = objs σ.
Proof.
  induction fuel as [|fuel IHfuel]; intros A c;
    induction c as [a0|v k IH|v k IH|d s n k IH|p k IH|p b k IH
                    |t d s k IH|t d s k IH|t v k IH|]; intros σ a σ';
    rewrite run_unfold; try done.
  all: try (intros [= _ <-]; done).
  all: try (destruct (objs σ !! v); [apply IH|done]).
  all: try (destruct (memcpy (mem σ) d s n); [|done]; intros H; by apply IH in H).
  all: try (destruct (mem σ !! p); [|done]; intros H; by apply IH in H).
  all: destruct (objs σ !! t) as [o|]; [|done].
  - destruct (copy (witnessTable o)) as [g|]; [|done].
    destruct (run fuel (g d s) _) as [r σ1| | |] eqn:E; simpl; [|done..].
    intros H. apply IH in H. apply IHfuel in E. by rewrite H, E.
  - destruct (move (witnessTable o)) as [g|]; [|done].
    destruct (run fuel (g d s) _) as [r σ1| | |] eqn:E; simpl; [|done..].
    intros H. apply IH in H. apply IHfuel in E. by rewrite H, E.
  - destruct (destroy (witnessTable o)) as [g|]; [|done].
    destruct (run fuel (g v) _) as [r σ1| | |] eqn:E; simpl; [|done..].
    intros H. apply IH in H. apply IHfuel in E. by rewrite H, E.
Qed.

(** *** The trivial operations *)

Lemma run_trivialDestroy fuel v σ :
  run fuel (trivialDestroy v) σ = Undefined.
Proof. unfold trivialDestroy. by rewrite run_unfold. Qed.

Lemma run_returningDestroy fuel v σ :
  run fuel (returningDestroy v) σ = Done tt σ.
Proof. unfold returningDestroy. by rewrite run_unfold. Qed.

Section TrivialOperations.

Variables (σ : State) (pdst psrc : ptr) (dst src : Value) (B : list byte).

Hypothesis Hdst : objs σ !! pdst = Some dst.
Hypothesis Hsrc : objs σ !! psrc = Some src.
Hypothesis Hbytes :
  load_bytes (mem σ) (value src) (N.to_nat (sizeInBytes (typeMetadata dst))) = Some B.
Hypothesis Hvalid :
  is_Some (load_bytes (mem σ) (value dst) (N.to_nat (sizeInBytes (typeMetadata dst)))).
Hypothesis Hdisjoint :
  disjoint (value dst) (value src) (N.to_nat (sizeInBytes (typeMetadata dst))).

Lemma run_trivialCopy fuel (τ : State) :
  objs τ = objs σ -> mem τ = mem σ ->
  run fuel (trivialCopy pdst psrc) τ
  = Done pdst (set_mem (store_bytes (mem σ) (value dst) B) τ).
Proof.
  intros Ho Hm. unfold trivialCopy, getTypeMetadata, getValue, mbind, mret,
    Code_bind, Code_ret. cbn [bind].
  rewrite run_unfold, Ho, Hdst.
  rewrite run_unfold, Ho, Hdst.
  rewrite run_unfold, Ho, Hsrc.
  rewrite run_unfold, Hm, (memcpy_ok _ _ _ _ B) by done.
  by rewrite run_unfold.
Qed.

(** The trivial move over a destroy operation [g] that returns at once. *)
Lemma run_trivialMove fuel (τ : State) (g : ptr -> Code unit) :
  destroy (witnessTable src) = Some g ->
  (forall τ', run fuel (g psrc) τ' = Done tt τ') ->
  objs τ = objs σ -> mem τ = mem σ ->
  run (S fuel) (trivialMove pdst psrc) τ
  = Done pdst (record_call (InvDestroy psrc)
                 (set_mem (store_bytes (mem σ) (value dst) B) τ)).
Proof.
  intros Hd Hg Ho Hm. unfold trivialMove, getTypeMetadata, getValue, Value_destroy,
    mbind, mret, Code_bind, Code_ret. cbn [bind].
  rewrite run_unfold, Ho, Hdst.
  rewrite run_unfold, Ho, Hdst.
  rewrite run_unfold, Ho, Hsrc.
  rewrite run_unfold, Hm, (memcpy_ok _ _ _ _ B) by done.
  rewrite run_unfold. cbn [objs set_mem]. rewrite Ho, Hsrc, Hd.
  rewrite Hg. cbn [and_then].
  by rewrite run_unfold.
Qed.

End TrivialOperations.

(** [silt_moveValue] dispatches to the move slot of the source's table, and
    to nothing else: every further dispatch is made by the move operation. *)
Lemma silt_moveValue_dispatch fuel σ pdst psrc src f :
  objs σ !! psrc = Some src ->
  move (witnessTable src) = Some f ->
  run (S fuel) (silt_moveValue pdst psrc) σ
  = and_then (run fuel (f pdst psrc) (record_call (InvMove pdst psrc) σ))
             (fun _ σ' => Done pdst σ').
Proof.
  intros Hs Hf. unfold silt_moveValue, Value_move, mbind, mret, Code_bind,
    Code_ret. cbn [bind].
  rewrite run_unfold, Hs, Hf.
  destruct (run fuel (f pdst psrc) _); cbn [and_then]; [|done..].
  by rewrite run_unfold.
Qed.

(** [Value::copy] dispatches to the copy slot of the source's table. *)
Lemma Value_copy_dispatch fuel σ pdst psrc src f :
  objs σ !! psrc = Some src ->
  copy (witnessTable src) = Some f ->
  run (S fuel) (Value_copy psrc pdst) σ
  = and_then (run fuel (f pdst psrc) (record_call (InvCopy pdst psrc) σ))
             (fun _ σ' => Done tt σ').
Proof.
  intros Hs Hf. unfold Value_copy. rewrite run_unfold, Hs, Hf.
  destruct (run fuel (f pdst psrc) _); cbn [and_then]; [|done..].
  by rewrite run_unfold.
Qed.

Lemma Value_destroy_returning fuel σ p v (g : ptr -> Code unit) :
  objs σ !! p = Some v ->
  destroy (witnessTable v) = Some g ->
  (forall τ, run fuel (g p) τ = Done tt τ) ->
  run (S fuel) (Value_destroy p) σ = Done tt (record_call (InvDestroy p) σ).
Proof.
  intros Hp Hd Hg. unfold Value_destroy.
  rewrite run_unfold, Hp, Hd, Hg. cbn [and_then].
  by rewrite run_unfold.
Qed.

(** The destroy of a value bound to [trivialDestroy] is undefined. *)
Lemma Value_destroy_trivial fuel σ p v :
  objs σ !! p = Some v ->
  destroy (witnessTable v) = Some trivialDestroy ->
  run (S fuel) (Value_destroy p) σ = Undefined.
Proof.
  intros Hp Hd. unfold Value_destroy.
  rewrite run_unfold, Hp, Hd. unfold trivialDestroy. by rewrite run_unfold.
Qed.

(** Over a destroy that returns, [silt_moveValue] with the trivial move
    destroys the source once, inside [trivialMove]. *)
Lemma silt_moveValue_trivial fuel σ pdst psrc dst src B (g : ptr -> Code unit) :
  objs σ !! pdst = Some dst ->
  objs σ !! psrc = Some src ->
  move (witnessTable src) = Some trivialMove ->
  destroy (witnessTable src) = Some g ->
  (forall τ, run fuel (g psrc) τ = Done tt τ) ->
  load_bytes (mem σ) (value src) (N.to_nat (sizeInBytes (typeMetadata dst))) = Some B ->
  is_Some (load_bytes (mem σ) (value dst) (N.to_nat (sizeInBytes (typeMetadata dst)))) ->
  disjoint (value dst) (value src) (N.to_nat (sizeInBytes (typeMetadata dst))) ->
  exists σ',
    run (S (S fuel)) (silt_moveValue pdst psrc) σ = Done pdst σ' /\
    calls σ' = calls σ ++ [InvMove pdst psrc; InvDestroy psrc].
Proof.
  intros Hd Hs Hm Hg Hret Hb Hv Hdis. eexists. split.
  - rewrite (silt_moveValue_dispatch _ _ _ _ src trivialMove) by done.
    rewrite (run_trivialMove σ pdst psrc dst src B) with (g := g) by done.
    reflexivity.
  - cbn. by rewrite <- app_assoc.
Qed.

(** Over a destroy that returns, [initializeWithTake] with the trivial move
    destroys the source twice: once inside [trivialMove], once after the
    move returned. *)
Lemma initializeWithTake_trivial fuel σ pdst psrc dst src B (g : ptr -> Code unit) :
  objs σ !! pdst = Some dst ->
  objs σ !! psrc = Some src ->
  move (witnessTable src) = Some trivialMove ->
  destroy (witnessTable src) = Some g ->
  (forall fuel' τ, run fuel' (g psrc) τ = Done tt τ) ->
  load_bytes (mem σ) (value src) (N.to_nat (sizeInBytes (typeMetadata dst))) = Some B ->
  is_Some (load_bytes (mem σ) (value dst) (N.to_nat (sizeInBytes (typeMetadata dst)))) ->
  disjoint (value dst) (value src) (N.to_nat (sizeInBytes (typeMetadata dst))) ->
  exists σ',
    run (S (S fuel)) (initializeWithTake pdst psrc) σ = Done tt σ' /\
    calls σ' = calls σ ++ [InvMove pdst psrc; InvDestroy psrc; InvDestroy psrc].
Proof.
  intros Hd Hs Hm Hg Hret Hb Hv Hdis. eexists. split.
  - unfold initializeWithTake, Value_move, mbind, Code_bind. cbn [bind].
    rewrite run_unfold, Hs, Hm.
    rewrite (run_trivialMove σ pdst psrc dst src B) with (g := g) by done.
    cbn [and_then].
    rewrite (Value_destroy_returning _ _ _ src g) by done.
    reflexivity.
  - cbn. by rewrite <- !app_assoc.
Qed.

(** A trivial move ends as the trivial copy followed by the dispatch of the
    source's destroy operation. *)
Lemma trivialMove_as_trivialCopy fuel σ pdst psrc src (g : ptr -> Code unit) :
  objs σ !! psrc = Some src ->
  destroy (witnessTable src) = Some g ->
  run (S fuel) (trivialMove pdst psrc) σ
  = and_then (run (S fuel) (trivialCopy pdst psrc) σ)
      (fun r σc =>
         and_then (run fuel (g psrc) (record_call (InvDestroy psrc) σc))
                  (fun _ σ' => Done r σ')).
Proof.
  intros Hs Hd. unfold trivialMove, trivialCopy, getTypeMetadata, getValue,
    Value_destroy, mbind, mret, Code_bind, Code_ret. cbn [bind].
  rewrite (run_unfold _ (GetTypeMetadata pdst _)).
  rewrite (run_unfold _ (GetTypeMetadata pdst _)).
  destruct (objs σ !! pdst) as [dst|]; [|done].
  rewrite (run_unfold _ (GetValue pdst _)).
  rewrite (run_unfold _ (GetValue pdst _)).
  destruct (objs σ !! pdst) as [dst'|]; [|done].
  rewrite (run_unfold _ (GetValue psrc _)).
  rewrite (run_unfold _ (GetValue psrc _)).
  rewrite Hs.
  rewrite (run_unfold _ (Memcpy _ _ _ _)).
  rewrite (run_unfold _ (Memcpy _ _ _ _)).
  destruct (memcpy (mem σ) (value dst') (value src) _) as [m'|]; [|done].
  rewrite (run_unfold _ (InvokeDestroy _ _ _)). cbn [objs set_mem].
  rewrite Hs, Hd. rewrite !(run_unfold _ (Ret _)). cbn [and_then].
  destruct (run fuel (g psrc) _); cbn [and_then]; [|done..].
  by rewrite (run_unfold _ (Ret _)).
Qed.

(** With the source bound to [trivialDestroy], a trivial move never
    returns, whatever the state and the call depth allowed. *)
Lemma trivialMove_never_returns fuel σ pdst psrc src :
  objs σ !! psrc = Some src ->
  destroy (witnessTable src) = Some trivialDestroy ->
  forall r σ', run fuel (trivialMove pdst psrc) σ <> Done r σ'.
Proof.
  intros Hs Hd r σ'. destruct fuel as [|fuel].
  - unfold trivialMove, getTypeMetadata, getValue, Value_destroy, mbind, mret,
      Code_bind, Code_ret. cbn [bind].
    rewrite run_unfold. destruct (objs σ !! pdst) as [dst|]; [|done].
    rewrite run_unfold. destruct (objs σ !! pdst) as [dst'|]; [|done].
    rewrite run_unfold, Hs.
    rewrite run_unfold. destruct (memcpy _ _ _ _); [|done].
    by rewrite run_unfold.
  - rewrite (trivialMove_as_trivialCopy _ _ _ _ src trivialDestroy) by done.
    destruct (run (S fuel) (trivialCopy pdst psrc) σ); cbn [and_then]; [|done..].
    unfold trivialDestroy. by rewrite run_unfold.
Qed.

(** C1 (what the code does).  The specification asks for one move, one
    destroy of the source and no copy on the move path.  On the pair
    scenario both paths dispatch one move and no copy; but over a destroy
    that returns, [Value::initializeWithTake] with the trivial move
    dispatches two destroys of the source (one inside [trivialMove], one of
    its own), and [silt_moveValue] with a table whose move is the flat byte
    copy dispatches no destroy at all.  With the trivial table as it is
    written, the destroy inside [trivialMove] reaches [trivialDestroy], and
    both paths are undefined. *)
Theorem move_paths_destroy_counts :
  let take :=
    run 2 (initializeWithTake 200 100) (pair_state returningDestroyWitnessTable) in
  let flat := run 2 (silt_moveValue 200 100) (pair_state flatMoveWitnessTable) in
  (exists σ', take = Done tt σ') /\
  new_calls 0 take = [InvMove 200 100; InvDestroy 100; InvDestroy 100] /\
  count is_move (new_calls 0 take) = 1%nat /\
  count is_copy (new_calls 0 take) = 0%nat /\
  count (is_destroy_of 100) (new_calls 0 take) = 2%nat /\
  (exists σ', flat = Done 200 σ') /\
  new_calls 0 flat = [InvMove 200 100] /\
  count is_move (new_calls 0 flat) = 1%nat /\
  count is_copy (new_calls 0 flat) = 0%nat /\
  count (is_destroy_of 100) (new_calls 0 flat) = 0%nat /\
  run 2 (initializeWithTake 200 100) (pair_state trivialWitnessTable) = Undefined /\
  run 2 (silt_moveValue 200 100) (pair_state trivialWitnessTable) = Undefined.
Proof.
  cbv zeta. repeat split; try (vm_compute; reflexivity).
  - destruct (initializeWithTake_trivial 0 (pair_state returningDestroyWitnessTable)
                200 100
                (mkValue pairMetadata returningDestroyWitnessTable 2000)
                (mkValue pairMetadata returningDestroyWitnessTable 1000) bytes_3_4
                returningDestroy)
      as (σ' & Hrun & _); try (vm_compute; reflexivity).
    + intros; apply run_returningDestroy.
    + eexists; vm_compute; reflexivity.
    + right; right; vm_compute; discriminate.
    + by exists σ'.
  - eexists. rewrite (silt_moveValue_dispatch 1 _ 200 100
                        (mkValue pairMetadata flatMoveWitnessTable 1000) trivialCopy)
      by (vm_compute; reflexivity).
    rewrite (run_trivialCopy (pair_state flatMoveWitnessTable) 200 100
               (mkValue pairMetadata flatMoveWitnessTable 2000)
               (mkValue pairMetadata flatMoveWitnessTable 1000) bytes_3_4);
      try (vm_compute; reflexivity).
    + eexists; vm_compute; reflexivity.
    + right; right; vm_compute; discriminate.
Qed.

(** C2 (what the code does).  The constructor takes a descriptor and a table
    and no storage; [getValue] on the constructed object returns what the
    member [value] held before construction, whatever storage the caller
    has. *)
Theorem Value_ctor_leaves_value_unset
    (typeMetadata : TypeMetadata) (witnessTable : WitnessTable)
    (indeterminate p : ptr) (fuel : nat) (σ : State) :
  run fuel (getValue p) (construct_at p typeMetadata witnessTable indeterminate σ)
  = Done indeterminate (construct_at p typeMetadata witnessTable indeterminate σ)
  /\ mem (construct_at p typeMetadata witnessTable indeterminate σ) = mem σ.
Proof.
  split; [|done].
  unfold getValue. rewrite run_unfold. cbn [objs construct_at].
  rewrite lookup_insert_eq. cbn [value Value_ctor]. by rewrite run_unfold.
Qed.

(** The trivial copy writes the bytes [B] of the source's storage, as many
    as the destination's size says, over the destination's storage and
    nothing else. *)
Lemma trivialCopy_copies_bytes
    (fuel : nat) (σ : State) (pdst psrc : ptr) (dst src : Value) (B : list byte) :
  objs σ !! pdst = Some dst ->
  objs σ !! psrc = Some src ->
  load_bytes (mem σ) (value src) (N.to_nat (sizeInBytes (typeMetadata dst))) = Some B ->
  is_Some (load_bytes (mem σ) (value dst) (N.to_nat (sizeInBytes (typeMetadata dst)))) ->
  disjoint (value dst) (value src) (N.to_nat (sizeInBytes (typeMetadata dst))) ->
  run fuel (trivialCopy pdst psrc) σ
    = Done pdst (set_mem (store_bytes (mem σ) (value dst) B) σ) /\
  List.length B = N.to_nat (sizeInBytes (typeMetadata dst)) /\
  load_bytes (store_bytes (mem σ) (value dst) B) (value dst)
    (N.to_nat (sizeInBytes (typeMetadata dst))) = Some B /\
  (forall q, q < value dst \/ value dst + Z.of_N (sizeInBytes (typeMetadata dst)) <= q ->
     store_bytes (mem σ) (value dst) B !! q = mem σ !! q).
Proof.
  intros Hd Hs Hb Hv Hdis.
  pose proof (load_bytes_length _ _ _ _ Hb) as Hlen.
  split; [by apply (run_trivialCopy σ pdst psrc dst src B)|].
  split; [done|]. split.
  - rewrite <- Hlen at 1. apply load_bytes_store_same.
  - intros q Hq. apply store_bytes_lookup_outside. lia.
Qed.

(** Had the destroy returned, the copy would survive the destroy of the
    original: over a destroy operation that returns at once, copying and
    then destroying the source leaves [B] in the destination. *)
Lemma copy_then_returning_destroy
    (fuel : nat) (σ : State) (pdst psrc : ptr) (dst src : Value) (B : list byte)
    (g : ptr -> Code unit) :
  objs σ !! pdst = Some dst ->
  objs σ !! psrc = Some src ->
  copy (witnessTable src) = Some trivialCopy ->
  destroy (witnessTable src) = Some g ->
  (forall τ, run fuel (g psrc) τ = Done tt τ) ->
  load_bytes (mem σ) (value src) (N.to_nat (sizeInBytes (typeMetadata dst))) = Some B ->
  is_Some (load_bytes (mem σ) (value dst) (N.to_nat (sizeInBytes (typeMetadata dst)))) ->
  disjoint (value dst) (value src) (N.to_nat (sizeInBytes (typeMetadata dst))) ->
  exists σ',
    run (S fuel) (_ ← Value_copy psrc pdst; Value_destroy psrc) σ = Done tt σ' /\
    objs σ' = objs σ /\
    load_bytes (mem σ') (value dst) (N.to_nat (sizeInBytes (typeMetadata dst))) = Some B.
Proof.
  intros Hd Hs Hc Hg Hret Hb Hv Hdis.
  pose proof (load_bytes_length _ _ _ _ Hb) as Hlen.
  eexists. split; [|split].
  - unfold mbind, Code_bind. rewrite run_bind.
    rewrite (Value_copy_dispatch _ _ _ _ src trivialCopy) by done.
    rewrite (run_trivialCopy σ pdst psrc dst src B) by done.
    cbn [and_then].
    by rewrite (Value_destroy_returning _ _ _ src g) by done.
  - done.
  - cbn [mem record_call set_mem]. rewrite <- Hlen at 1.
    apply load_bytes_store_same.
Qed.

(** C3 (what the code does).  On the pair scenario with the trivial table
    the trivial copy does what the specification says: it returns, and the
    destination holds the 16 bytes of (3, 4).  The trivial destroy does not:
    [trivialDestroy] is declared to return a pointer and has no [return],
    so calling it is undefined, at any value and in any state; destroying
    the original after the copy is undefined, and so is the copy followed
    by the destroy. *)
Theorem trivial_destroy_after_copy_undefined :
  (exists σ1,
     run 1 (Value_copy 100 200) (pair_state trivialWitnessTable) = Done tt σ1 /\
     load_bytes (mem σ1) 2000 16 = Some bytes_3_4 /\
     load_bytes (mem σ1) 1000 16 = Some bytes_3_4 /\
     run 1 (Value_destroy 100) σ1 = Undefined) /\
  (forall fuel v τ, run fuel (trivialDestroy v) τ = Undefined) /\
  (forall fuel,
     run (S fuel) (_ ← Value_copy 100 200; Value_destroy 100)
       (pair_state trivialWitnessTable) = Undefined).
Proof.
  split; [|split].
  - eexists. split; [vm_compute; reflexivity|].
    repeat split; vm_compute; reflexivity.
  - intros. apply run_trivialDestroy.
  - intros fuel. unfold mbind, Code_bind. rewrite run_bind.
    rewrite (Value_copy_dispatch _ _ _ _
               (mkValue pairMetadata trivialWitnessTable 1000) trivialCopy)
      by (vm_compute; reflexivity).
    rewrite (run_trivialCopy (pair_state trivialWitnessTable) 200 100
               (mkValue pairMetadata trivialWitnessTable 2000)
               (mkValue pairMetadata trivialWitnessTable 1000) bytes_3_4);
      try (vm_compute; reflexivity).
    + cbn [and_then].
      apply (Value_destroy_trivial _ _ _ (mkValue pairMetadata trivialWitnessTable 1000));
        vm_compute; reflexivity.
    + eexists; vm_compute; reflexivity.
    + right; right; vm_compute; discriminate.
Qed.

(** Had the destroy returned, the trivial move would end as the trivial
    copy: over a destroy operation that returns at once they give the same
    pointer, objects and memory, and the move records one more dispatch. *)
Lemma trivialMove_over_returning_destroy
    (fuel : nat) (σ : State) (pdst psrc : ptr) (src : Value) (g : ptr -> Code unit) :
  objs σ !! psrc = Some src ->
  destroy (witnessTable src) = Some g ->
  (forall τ, run fuel (g psrc) τ = Done tt τ) ->
  run (S fuel) (trivialMove pdst psrc) σ
  = and_then (run (S fuel) (trivialCopy pdst psrc) σ)
             (fun r σc => Done r (record_call (InvDestroy psrc) σc)).
Proof.
  intros Hs Hd Hg. rewrite (trivialMove_as_trivialCopy _ _ _ _ src g) by done.
  destruct (run (S fuel) (trivialCopy pdst psrc) σ); cbn [and_then]; [|done..].
  by rewrite Hg.
Qed.

(** C9 (what the code does).  On the pair scenario with the trivial table
    the trivial copy returns, with the source's bytes in the destination and
    still in the source; the trivial move does not: after the same
    [memcpy] it calls [src->destroy()], which reaches [trivialDestroy] and
    is undefined.  So the trivial move returns at no call depth, and the
    two operations are not equal. *)
Theorem trivialMove_differs_from_trivialCopy :
  (exists σc,
     run 1 (trivialCopy 200 100) (pair_state trivialWitnessTable) = Done 200 σc /\
     load_bytes (mem σc) 2000 16 = Some bytes_3_4 /\
     load_bytes (mem σc) 1000 16 = Some bytes_3_4) /\
  run 1 (trivialMove 200 100) (pair_state trivialWitnessTable) = Undefined /\
  (forall fuel r σ',
     run fuel (trivialMove 200 100) (pair_state trivialWitnessTable) <> Done r σ').
Proof.
  split; [|split].
  - eexists. split; [vm_compute; reflexivity|].
    split; vm_compute; reflexivity.
  - vm_compute; reflexivity.
  - intros fuel.
    apply (trivialMove_never_returns fuel _ 200 100
             (mkValue pairMetadata trivialWitnessTable 1000));
      vm_compute; reflexivity.
Qed.

(** C4, amended.  Whatever the source's table, a copy that returns leaves
    the source and the destination objects with their descriptor, table and
    storage pointer.  When the source's copy operation is the trivial copy,
    the destination has the source's metadata, and its storage is allocated
    and apart from the source's, [Value::copy] and [silt_copyValue] return,
    the source's storage keeps its bytes, the destination's storage holds
    the same bytes, and the two storages are still apart. *)
Theorem copy_leaves_source_unchanged
    (fuel : nat) (σ : State) (pdst psrc : ptr) (dst src : Value) :
  objs σ !! pdst = Some dst ->
  objs σ !! psrc = Some src ->
  (forall r σ',
     run fuel (silt_copyValue pdst psrc) σ = Done r σ' ->
     objs σ' !! psrc = Some src /\ objs σ' !! pdst = Some dst) /\
  (copy (witnessTable src) = Some trivialCopy ->
   typeMetadata dst = typeMetadata src ->
   forall B : list byte,
     load_bytes (mem σ) (value src) (N.to_nat (sizeInBytes (typeMetadata src))) = Some B ->
     is_Some (load_bytes (mem σ) (value dst) (N.to_nat (sizeInBytes (typeMetadata src)))) ->
     disjoint (value dst) (value src) (N.to_nat (sizeInBytes (typeMetadata src))) ->
     exists σ',
       run (S fuel) (silt_copyValue pdst psrc) σ = Done pdst σ' /\
       run (S fuel) (Value_copy psrc pdst) σ = Done tt σ' /\
       objs σ' = objs σ /\
       load_bytes (mem σ') (value src) (N.to_nat (sizeInBytes (typeMetadata src))) = Some B /\
       load_bytes (mem σ') (value dst) (N.to_nat (sizeInBytes (typeMetadata src))) = Some B /\
       (forall src' dst', objs σ' !! psrc = Some src' -> objs σ' !! pdst = Some dst' ->
          disjoint (value dst') (value src') (N.to_nat (sizeInBytes (typeMetadata src'))))).
Proof.
  intros Hd Hs. split.
  { intros r σ' Hrun. apply run_objs in Hrun. by rewrite Hrun. }
  intros Hc Hm. rewrite <- Hm. intros B Hb Hv Hdis.
  pose proof (load_bytes_length _ _ _ _ Hb) as Hlen.
  assert (Hrun : run (S fuel) (Value_copy psrc pdst) σ
                 = Done tt (set_mem (store_bytes (mem σ) (value dst) B)
                              (record_call (InvCopy pdst psrc) σ))).
  { rewrite (Value_copy_dispatch _ _ _ _ src trivialCopy) by done.
    by rewrite (run_trivialCopy σ pdst psrc dst src B). }
  eexists. split; [|split; [exact Hrun|]].
  - unfold silt_copyValue, mbind, mret, Code_bind, Code_ret.
    rewrite run_bind, Hrun. cbn [and_then]. by rewrite run_unfold.
  - cbn [objs mem set_mem record_call]. repeat split; try done.
    + rewrite load_bytes_store_disjoint; done.
    + rewrite <- Hlen at 1. apply load_bytes_store_same.
    + intros src' dst'. rewrite Hs, Hd. intros [= <-] [= <-]. by rewrite <- Hm.
Qed.

Lemma copy_leaves_source_unchanged_witness :
  exists σ',
    run 1 (silt_copyValue 200 100) (pair_state trivialWitnessTable) = Done 200 σ' /\
    objs σ' !! 100 = Some (mkValue pairMetadata trivialWitnessTable 1000) /\
    load_bytes (mem σ') 1000 16 = Some bytes_3_4.
Proof.
  destruct (copy_leaves_source_unchanged 0 (pair_state trivialWitnessTable)
              200 100
              (mkValue pairMetadata trivialWitnessTable 2000)
              (mkValue pairMetadata trivialWitnessTable 1000))
    as [_ H].
  - vm_compute; reflexivity.
  - vm_compute; reflexivity.
  - destruct (H eq_refl eq_refl bytes_3_4) as (σ' & Hrun & _ & Hobj & Hsrc & _).
    + vm_compute; reflexivity.
    + eexists; vm_compute; reflexivity.
    + right; right; vm_compute; discriminate.
    + exists σ'. split; [exact Hrun|]. split; [|exact Hsrc].
      rewrite Hobj. vm_compute; reflexivity.
Defined.

(** C4 as stated fails for a type whose copy operation writes to the
    source: the destination is allocated, of the same type and apart from
    the source, the copy returns, and the source's bytes have changed. *)
Lemma sharing_copy_changes_source :
  objs (pair_state sharingWitnessTable) !! 100
    = Some (mkValue pairMetadata sharingWitnessTable 1000) /\
  objs (pair_state sharingWitnessTable) !! 200
    = Some (mkValue pairMetadata sharingWitnessTable 2000) /\
  is_Some (load_bytes (mem (pair_state sharingWitnessTable)) 2000 16) /\
  disjoint 2000 1000 16 /\
  load_bytes (mem (pair_state sharingWitnessTable)) 1000 16 = Some bytes_3_4 /\
  exists σ',
    run 1 (silt_copyValue 200 100) (pair_state sharingWitnessTable) = Done 200 σ' /\
    load_bytes (mem σ') 1000 16 <> Some bytes_3_4.
Proof.
  split; [vm_compute; reflexivity|].
  split; [vm_compute; reflexivity|].
  split; [eexists; vm_compute; reflexivity|].
  split; [right; right; vm_compute; discriminate|].
  split; [vm_compute; reflexivity|].
  eexists. split.
  - unfold silt_copyValue, mbind, mret, Code_bind, Code_ret.
    rewrite run_bind.
    rewrite (Value_copy_dispatch 0 _ 200 100
               (mkValue pairMetadata sharingWitnessTable 1000) sharingCopy)
      by (vm_compute; reflexivity).
    vm_compute. reflexivity.
  - vm_compute. discriminate.
Qed.

End RuntimeFacts.

(** ** Facts about Sources/Ferrite *)

Module FerriteFacts.
Import Ferrite.

Lemma string_app_assoc (a b c : string) : (a +:+ b) +:+ c = a +:+ (b +:+ c).
Proof.
  induction a as [|x a IH]; [done|].
  change (String x ((a +:+ b) +:+ c) = String x (a +:+ (b +:+ c))).
  by rewrite IH.
Qed.

Lemma string_app_newline_nonempty (a : string) : a +:+ newline <> "".
Proof. by destruct a. Qed.

(** *** The bounded [malloc] keeps the contract *)

Lemma fresh_block_above (h : gmap N N) (b : N) :
  is_Some (h !! b) -> (b < fresh_block h)%N.
Proof.
  unfold fresh_block. intros Hb. apply N.lt_succ_r. revert b Hb.
  apply (map_fold_weak_ind
           (fun r (m : gmap N N) => forall b, is_Some (m !! b) -> (b <= r)%N)).
  - intros b [x Hx]. by rewrite lookup_empty in Hx.
  - intros i x m r Hi IH b Hb.
    destruct (decide (i = b)) as [->|Hne]; [lia|].
    rewrite lookup_insert_ne in Hb by done. specialize (IH b Hb). lia.
Qed.

Lemma fresh_block_fresh (h : gmap N N) : h !! fresh_block h = None.
Proof.
  destruct (h !! fresh_block h) eqn:E; [|done].
  assert (fresh_block h < fresh_block h)%N by (apply fresh_block_above; eauto).
  lia.
Qed.

Lemma bounded_malloc_contract (capacity : N) :
  malloc_contract (bounded_malloc capacity).
Proof.
  intros n h. unfold bounded_malloc. case_decide; [|done].
  split; [apply fresh_block_fresh|done].
Qed.

(** *** Errors.cpp *)

(** C8.  [crash] appends the message and a newline to [stderr], so what it
    wrote is not empty whatever the message, and ends the process by
    [abort]; it touches nothing else, and it does not return. *)
Theorem crash_writes_then_aborts {W : Type} (message : string) (σ : Process W) :
  exists σ',
    crash message σ = Aborted σ' /\
    stderr σ' = stderr σ +:+ (message +:+ newline) /\
    message +:+ newline <> "" /\
    world σ' = world σ /\ heap σ' = heap σ /\ objects σ' = objects σ /\
    (forall (a : unit) (τ : Process W), crash message σ <> Returned a τ).
Proof.
  eexists. split; [reflexivity|]. cbn.
  split; [apply string_app_assoc|].
  split; [apply string_app_newline_nonempty|].
  repeat split. intros a τ. discriminate.
Qed.

(** *** Heap.cpp *)

Section Allocator.

Context {W : Type}.
Variable malloc : N -> gmap N N -> ptr * gmap N N.
Hypothesis malloc_ok : malloc_contract malloc.

(** When [malloc] gives a block, [silt_alloc] returns it. *)
Lemma silt_alloc_success (n b : N) (h' : gmap N N) (σ : Process W) :
  malloc n (heap σ) = (HeapAddr b, h') ->
  silt_alloc malloc n σ
  = Returned (HeapAddr b)
      {| world := world σ; heap := h'; stderr := stderr σ; objects := objects σ |}.
Proof.
  intros E. unfold silt_alloc, mbind, M_bind, call_malloc. by rewrite E.
Qed.

(** When [malloc] gives a null pointer, [silt_alloc] crashes. *)
Lemma silt_alloc_failure (n : N) (h' : gmap N N) (σ : Process W) :
  malloc n (heap σ) = (nullptr, h') ->
  silt_alloc malloc n σ
  = Aborted
      {| world := world σ; heap := h';
         stderr := (stderr σ +:+ "silt_alloc failed to allocate memory")
                   +:+ newline;
         objects := objects σ |}.
Proof.
  intros E. unfold silt_alloc, mbind, M_bind, call_malloc. by rewrite E.
Qed.

(** C7.  For [n > 0], [silt_alloc n] either returns a pointer that is not
    null, to a block of [n] bytes that was not in use before, or [malloc]
    failed and the process is aborted after the diagnostic was written to
    [stderr]; in no case does it return a null pointer. *)
Theorem silt_alloc_never_null (n : N) (σ : Process W) :
  (0 < n)%N ->
  (forall p σ', silt_alloc malloc n σ = Returned p σ' -> p <> nullptr) /\
  ((exists b σ',
      silt_alloc malloc n σ = Returned (HeapAddr b) σ' /\
      heap σ !! b = None /\
      heap σ' = <[b := n]> (heap σ) /\
      stderr σ' = stderr σ)
   \/
   (fst (malloc n (heap σ)) = nullptr /\
    exists σ',
      silt_alloc malloc n σ = Aborted σ' /\
      heap σ' = heap σ /\
      stderr σ' = stderr σ +:+ ("silt_alloc failed to allocate memory" +:+ newline) /\
      stderr σ' <> "")).
Proof.
  intros _. pose proof (malloc_ok n (heap σ)) as Hc.
  destruct (malloc n (heap σ)) as [[|g|b] h'] eqn:E; [| done |].
  - subst h'. rewrite (silt_alloc_failure _ _ _ E). split; [discriminate|].
    right. split; [done|]. eexists. split; [reflexivity|]. cbn.
    split; [done|]. split; [apply string_app_assoc|].
    rewrite string_app_assoc. by destruct (stderr σ).
  - destruct Hc as [Hfree ->]. rewrite (silt_alloc_success _ _ _ _ E).
    split; [by intros p σ' [= <- _]|].
    left. eexists _, _. split; [reflexivity|]. by cbn.
Qed.

End Allocator.

(** With an arena of 100 bytes, 10 bytes are granted. *)
Lemma silt_alloc_never_null_witness :
  (0 < 10)%N /\
  exists b σ',
    silt_alloc (bounded_malloc 100) 10 (initial tt) = Returned (HeapAddr b) σ' /\
    heap σ' !! b = Some 10%N.
Proof.
  split; [reflexivity|].
  destruct (silt_alloc_never_null (bounded_malloc 100) (bounded_malloc_contract 100)
              10 (initial tt)) as [_ [(b & σ' & Hrun & _ & Hheap & _) | [Hnull _]]].
  - reflexivity.
  - exists b, σ'. split; [exact Hrun|]. rewrite Hheap. apply lookup_insert_eq.
  - vm_compute in Hnull. discriminate Hnull.
Defined.

(** With the same arena, 101 bytes are refused and the process is aborted
    with the diagnostic on [stderr]. *)
Example silt_alloc_simulated_failure :
  exists σ',
    silt_alloc (bounded_malloc 100) 101 (initial tt) = Aborted σ' /\
    stderr σ' = "silt_alloc failed to allocate memory" +:+ newline.
Proof. eexists. split; vm_compute; reflexivity. Qed.

(** *** ManagedObject.h *)




(** *** ManagedObject.cpp *)

Lemma silt_allocEmptyBox_eq {W : Type} (σ : Process W) :
  silt_allocEmptyBox σ = Returned (GlobalAddr g_EmptyBoxStorage) σ.
Proof. reflexivity. Qed.

(** C6.  Two calls of [silt_allocEmptyBox] return the same pointer, the
    address of the static object [_EmptyBoxStorage], and after them the
    blocks in use and the objects are those from before the calls: nothing
    was allocated.  In the initial process that address holds the
    singleton. *)
Theorem silt_allocEmptyBox_same_singleton {W : Type} (σ : Process W) :
  exists p1 p2 σ1 σ2,
    silt_allocEmptyBox σ = Returned p1 σ1 /\
    silt_allocEmptyBox σ1 = Returned p2 σ2 /\
    p1 = p2 /\
    p1 = GlobalAddr g_EmptyBoxStorage /\
    heap σ2 = heap σ /\
    objects σ2 = objects σ /\
    (forall w : W, objects (initial w) !! p1 = Some (header _EmptyBoxStorage)).
Proof.
  exists (GlobalAddr g_EmptyBoxStorage), (GlobalAddr g_EmptyBoxStorage), σ, σ.
  repeat split.
Qed.

(** C10.  Any number of calls of [silt_allocEmptyBox] in a row return the
    singleton's address each time and leave the whole process as it was,
    so the singleton has the closures, the descriptor and the value it had
    before; no count is kept or changed. *)
Theorem acquire_n_leaves_singleton {W : Type} (n : nat) (σ : Process W) :
  exists σ',
    acquire_n n σ = Returned (replicate n (GlobalAddr g_EmptyBoxStorage)) σ' /\
    σ' = σ /\
    objects σ' !! GlobalAddr g_EmptyBoxStorage
      = objects σ !! GlobalAddr g_EmptyBoxStorage /\
    (forall o, objects σ !! GlobalAddr g_EmptyBoxStorage = Some o ->
       exists o', objects σ' !! GlobalAddr g_EmptyBoxStorage = Some o' /\
         copyImpl o' = copyImpl o /\ destroyImpl o' = destroyImpl o /\
         metadata o' = metadata o /\ value o' = value o).
Proof.
  exists σ. split; [|split; [done|split; [done|]]].
  - revert σ. induction n as [|n IH]; intros σ; [reflexivity|].
    cbn [acquire_n replicate]. unfold mbind, M_bind.
    rewrite silt_allocEmptyBox_eq, IH. reflexivity.
  - intros o Ho. by exists o.
Qed.

End FerriteFacts.

(** ** More facts about Sources/Runtime *)

Module RuntimeBoundaryFacts.
Import Runtime RuntimeBoundary RuntimeFacts.

(** The record of dispatches only grows. *)
Lemma run_calls fuel : forall {A} (c : Code A) σ a σ',
  run fuel c σ = Done a σ' -> exists l, calls σ' = calls σ ++ l.
Proof.
  induction fuel as [|fuel IHfuel]; intros A c;
    induction c as [a0|v k IH|v k IH|d s n k IH|p k IH|p b k IH
                    |t d s k IH|t d s k IH|t v k IH|]; intros σ a σ';
    rewrite run_unfold; try done.
  all: try (intros [= _ <-]; exists []; by rewrite app_nil_r).
  all: try (destruct (objs σ !! v); [apply IH|done]).
  all: try (destruct (memcpy (mem σ) d s n); [|done]; intros H; by apply IH in H).
  all: try (destruct (mem σ !! p); [|done]; intros H; by apply IH in H).
  all: destruct (objs σ !! t) as [o|]; [|done].
  - destruct (copy (witnessTable o)) as [g|]; [|done].
    destruct (run fuel (g d s) _) as [r σ1| | |] eqn:E; simpl; [|done..].
    intros H. apply IH in H as [l2 H]. apply IHfuel in E as [l1 E].
    exists ([InvCopy d s] ++ l1 ++ l2). rewrite H, E. cbn [calls record_call].
    by rewrite <- !app_assoc.
  - destruct (move (witnessTable o)) as [g|]; [|done].
    destruct (run fuel (g d s) _) as [r σ1| | |] eqn:E; simpl; [|done..].
    intros H. apply IH in H as [l2 H]. apply IHfuel in E as [l1 E].
    exists ([InvMove d s] ++ l1 ++ l2). rewrite H, E. cbn [calls record_call].
    by rewrite <- !app_assoc.
  - destruct (destroy (witnessTable o)) as [g|]; [|done].
    destruct (run fuel (g v) _) as [r σ1| | |] eqn:E; simpl; [|done..].
    intros H. apply IH in H as [l2 H]. apply IHfuel in E as [l1 E].
    exists ([InvDestroy v] ++ l1 ++ l2). rewrite H, E. cbn [calls record_call].
    by rewrite <- !app_assoc.
Qed.

(** *** [silt_copyValue] and [silt_moveValue], whatever the table *)

(** X1.  Whatever operation the source's table holds, when [silt_copyValue]
    returns it returns the destination handle (what the operation returned
    is dropped), the source was a live object with a bound copy slot, and
    the first dispatch it made was that copy, with the destination first
    and the source second. *)
Theorem silt_copyValue_returns_dst
    (fuel : nat) (σ σ' : State) (pdst psrc r : ptr) :
  run fuel (silt_copyValue pdst psrc) σ = Done r σ' ->
  r = pdst /\
  exists src f l,
    objs σ !! psrc = Some src /\
    copy (witnessTable src) = Some f /\
    calls σ' = calls σ ++ InvCopy pdst psrc :: l.
Proof.
  unfold silt_copyValue, Value_copy, mbind, mret, Code_bind, Code_ret.
  cbn [bind]. rewrite run_unfold.
  destruct fuel as [|fuel]; [done|].
  destruct (objs σ !! psrc) as [src|]; [|done].
  destruct (copy (witnessTable src)) as [f|] eqn:Hf; [|done].
  destruct (run fuel (f pdst psrc) _) as [x σ1| | |] eqn:E; cbn [and_then]; [|done..].
  rewrite run_unfold. intros [= Hr Hσ]. subst r σ'. split; [done|].
  apply run_calls in E as [l E]. exists src, f, l.
  split; [done|]. split; [done|].
  rewrite E. cbn [calls record_call]. by rewrite <- app_assoc.
Qed.

(** The operation returns a null pointer, [silt_copyValue] the destination. *)
Lemma silt_copyValue_returns_dst_witness :
  exists σ',
    run 1 (silt_copyValue 200 100) (pair_state nullReturningWitnessTable)
      = Done 200 σ' /\
    run 0 (copyReturningNull 200 100) (pair_state nullReturningWitnessTable)
      = Done 0 (set_mem (mem σ') (pair_state nullReturningWitnessTable)).
Proof.
  destruct (run 1 (silt_copyValue 200 100) (pair_state nullReturningWitnessTable))
    as [r σ'| | |] eqn:E; try (vm_compute in E; discriminate E).
  destruct (silt_copyValue_returns_dst 1 _ σ' 200 100 r E) as [-> _].
  exists σ'. split; [reflexivity|].
  vm_compute in E. injection E as <-. vm_compute. reflexivity.
Defined.

(** X2.  Whatever operation the source's table holds, when [silt_moveValue]
    returns it returns the destination handle, the source was a live object
    with a bound move slot, and the first dispatch it made was that move,
    with the destination first and the source second. *)
Theorem silt_moveValue_returns_dst
    (fuel : nat) (σ σ' : State) (pdst psrc r : ptr) :
  run fuel (silt_moveValue pdst psrc) σ = Done r σ' ->
  r = pdst /\
  exists src f l,
    objs σ !! psrc = Some src /\
    move (witnessTable src) = Some f /\
    calls σ' = calls σ ++ InvMove pdst psrc :: l.
Proof.
  unfold silt_moveValue, Value_move, mbind, mret, Code_bind, Code_ret.
  cbn [bind]. rewrite run_unfold.
  destruct fuel as [|fuel]; [done|].
  destruct (objs σ !! psrc) as [src|]; [|done].
  destruct (move (witnessTable src)) as [f|] eqn:Hf; [|done].
  destruct (run fuel (f pdst psrc) _) as [x σ1| | |] eqn:E; cbn [and_then]; [|done..].
  rewrite run_unfold. intros [= Hr Hσ]. subst r σ'. split; [done|].
  apply run_calls in E as [l E]. exists src, f, l.
  split; [done|]. split; [done|].
  rewrite E. cbn [calls record_call]. by rewrite <- app_assoc.
Qed.

Lemma silt_moveValue_returns_dst_witness :
  exists σ',
    run 2 (silt_moveValue 200 100) (pair_state returningDestroyWitnessTable)
      = Done 200 σ' /\
    calls σ' = [InvMove 200 100; InvDestroy 100].
Proof.
  destruct (run 2 (silt_moveValue 200 100) (pair_state returningDestroyWitnessTable))
    as [r σ'| | |] eqn:E; try (vm_compute in E; discriminate E).
  destruct (silt_moveValue_returns_dst 2 _ σ' 200 100 r E) as [-> _].
  exists σ'. split; [reflexivity|].
  vm_compute in E. injection E as <-. reflexivity.
Defined.

(** *** The trivial operations at the edges *)

Lemma memcpy_overlap (m : gmap Z byte) dst src n :
  ~ disjoint dst src (N.to_nat n) -> memcpy m dst src n = None.
Proof.
  intros H. unfold memcpy.
  destruct (load_bytes m src (N.to_nat n)); [|done].
  destruct (load_bytes m dst (N.to_nat n)); [|done].
  by rewrite decide_False.
Qed.

Lemma disjoint_sym p q n : disjoint p q n -> disjoint q p n.
Proof. unfold disjoint. lia. Qed.

Lemma store_bytes_lookup_inside (m : gmap Z byte) p bs (i : nat) :
  (i < List.length bs)%nat ->
  store_bytes m p bs !! (p + Z.of_nat i) = bs !! i.
Proof.
  revert p i. induction bs as [|b bs IH]; intros p i Hi; simpl in Hi; [lia|].
  destruct i as [|i]; cbn [store_bytes].
  - change (Z.of_nat 0) with 0. rewrite Z.add_0_r. apply lookup_insert_eq.
  - rewrite lookup_insert_ne by lia.
    replace (p + Z.of_nat (S i)) with (p + 1 + Z.of_nat i) by lia.
    rewrite IH by lia. done.
Qed.

Lemma store_bytes_twice (m : gmap Z byte) p bs :
  store_bytes (store_bytes m p bs) p bs = store_bytes m p bs.
Proof.
  apply map_eq. intros q.
  destruct (decide (p <= q < p + Z.of_nat (List.length bs))) as [Hin|Hout].
  - replace q with (p + Z.of_nat (Z.to_nat (q - p))) by lia.
    rewrite !store_bytes_lookup_inside by lia. done.
  - rewrite !store_bytes_lookup_outside by lia. done.
Qed.

Lemma run_trivialCopy_overlap fuel τ pdst psrc dst src :
  objs τ !! pdst = Some dst ->
  objs τ !! psrc = Some src ->
  ~ disjoint (value dst) (value src) (N.to_nat (sizeInBytes (typeMetadata dst))) ->
  run fuel (trivialCopy pdst psrc) τ = Undefined.
Proof.
  intros Hd Hs Hov. unfold trivialCopy, getTypeMetadata, getValue, mbind, mret,
    Code_bind, Code_ret. cbn [bind].
  rewrite run_unfold, Hd. rewrite run_unfold, Hd. rewrite run_unfold, Hs.
  by rewrite run_unfold, memcpy_overlap.
Qed.

Lemma run_trivialMove_overlap fuel τ pdst psrc dst src :
  objs τ !! pdst = Some dst ->
  objs τ !! psrc = Some src ->
  ~ disjoint (value dst) (value src) (N.to_nat (sizeInBytes (typeMetadata dst))) ->
  run fuel (trivialMove pdst psrc) τ = Undefined.
Proof.
  intros Hd Hs Hov. unfold trivialMove, getTypeMetadata, getValue, mbind, mret,
    Code_bind, Code_ret. cbn [bind].
  rewrite run_unfold, Hd. rewrite run_unfold, Hd. rewrite run_unfold, Hs.
  by rewrite run_unfold, memcpy_overlap.
Qed.

(** X3.  The trivial copy and the trivial move hand the two storages to
    [memcpy] without a check: when the storage of the destination overlaps
    the storage of the source, as when a value of non-zero size is copied or
    moved onto itself, [silt_copyValue] and [silt_moveValue] are
    undefined. *)
Theorem trivial_copy_overlap_undefined
    (fuel : nat) (σ : State) (pdst psrc : ptr) (dst src : Value) :
  objs σ !! pdst = Some dst ->
  objs σ !! psrc = Some src ->
  ~ disjoint (value dst) (value src) (N.to_nat (sizeInBytes (typeMetadata dst))) ->
  (copy (witnessTable src) = Some trivialCopy ->
   run (S fuel) (silt_copyValue pdst psrc) σ = Undefined) /\
  (move (witnessTable src) = Some trivialMove ->
   run (S fuel) (silt_moveValue pdst psrc) σ = Undefined).
Proof.
  intros Hd Hs Hov. split; intros Hf.
  - unfold silt_copyValue, mbind, mret, Code_bind, Code_ret. rewrite run_bind.
    rewrite (Value_copy_dispatch _ _ _ _ src trivialCopy) by done.
    by rewrite (run_trivialCopy_overlap _ _ _ _ dst src).
  - rewrite (silt_moveValue_dispatch _ _ _ _ src trivialMove) by done.
    by rewrite (run_trivialMove_overlap _ _ _ _ dst src).
Qed.

(** The pair copied and moved onto itself. *)
Lemma trivial_copy_overlap_undefined_witness :
  run 1 (silt_copyValue 100 100) (pair_state trivialWitnessTable) = Undefined /\
  run 2 (silt_moveValue 100 100) (pair_state trivialWitnessTable) = Undefined.
Proof.
  destruct (trivial_copy_overlap_undefined 0 (pair_state trivialWitnessTable) 100 100
              (mkValue pairMetadata trivialWitnessTable 1000)
              (mkValue pairMetadata trivialWitnessTable 1000)) as [Hc _].
  - vm_compute; reflexivity.
  - vm_compute; reflexivity.
  - unfold disjoint. vm_compute. intros [H|[H|H]]; [discriminate H|..]; by apply H.
  - destruct (trivial_copy_overlap_undefined 1 (pair_state trivialWitnessTable) 100 100
                (mkValue pairMetadata trivialWitnessTable 1000)
                (mkValue pairMetadata trivialWitnessTable 1000)) as [_ Hm].
    + vm_compute; reflexivity.
    + vm_compute; reflexivity.
    + unfold disjoint. vm_compute. intros [H|[H|H]]; [discriminate H|..]; by apply H.
    + split; [exact (Hc eq_refl)|exact (Hm eq_refl)].
Defined.

(** X4.  The trivial copy takes the number of bytes from the destination's
    metadata; the source's metadata and the destination's table are never
    read.  So with a source bound to the trivial copy, whatever the two
    types are, [silt_copyValue] writes as many bytes of the source's storage
    as the destination's size says, and no byte beyond them. *)
Theorem trivial_copy_uses_destination_size
    (fuel : nat) (σ : State) (pdst psrc : ptr) (dst src : Value) (B : list byte) :
  objs σ !! pdst = Some dst ->
  objs σ !! psrc = Some src ->
  copy (witnessTable src) = Some trivialCopy ->
  load_bytes (mem σ) (value src) (N.to_nat (sizeInBytes (typeMetadata dst))) = Some B ->
  is_Some (load_bytes (mem σ) (value dst) (N.to_nat (sizeInBytes (typeMetadata dst)))) ->
  disjoint (value dst) (value src) (N.to_nat (sizeInBytes (typeMetadata dst))) ->
  exists σ',
    run (S fuel) (silt_copyValue pdst psrc) σ = Done pdst σ' /\
    List.length B = N.to_nat (sizeInBytes (typeMetadata dst)) /\
    load_bytes (mem σ') (value dst) (N.to_nat (sizeInBytes (typeMetadata dst))) = Some B /\
    (forall q, q < value dst \/ value dst + Z.of_N (sizeInBytes (typeMetadata dst)) <= q ->
       mem σ' !! q = mem σ !! q).
Proof.
  intros Hd Hs Hc Hb Hv Hdis.
  pose proof (load_bytes_length _ _ _ _ Hb) as Hlen.
  eexists. split; [|split; [done|split]].
  - unfold silt_copyValue, mbind, mret, Code_bind, Code_ret. rewrite run_bind.
    rewrite (Value_copy_dispatch _ _ _ _ src trivialCopy) by done.
    rewrite (run_trivialCopy σ pdst psrc dst src B) by done.
    cbn [and_then]. by rewrite run_unfold.
  - cbn [mem set_mem]. rewrite <- Hlen at 1. apply load_bytes_store_same.
  - intros q Hq. cbn [mem set_mem]. apply store_bytes_lookup_outside. lia.
Qed.

(** A 16-byte pair copied into an 8-byte word whose table is unbound: eight
    bytes are written, the ninth is as before. *)
Lemma trivial_copy_uses_destination_size_witness :
  exists σ',
    run 1 (silt_copyValue 200 100) mismatch_state = Done 200 σ' /\
    load_bytes (mem σ') 2000 8 = Some [x03; x00; x00; x00; x00; x00; x00; x00] /\
    mem σ' !! 2008 = Some xff.
Proof.
  destruct (trivial_copy_uses_destination_size 0 mismatch_state 200 100
              (mkValue wordMetadata emptyWitnessTable 2000)
              (mkValue pairMetadata trivialWitnessTable 1000)
              [x03; x00; x00; x00; x00; x00; x00; x00])
    as (σ' & Hrun & _ & Hload & Hrest).
  - vm_compute; reflexivity.
  - vm_compute; reflexivity.
  - reflexivity.
  - vm_compute; reflexivity.
  - eexists; vm_compute; reflexivity.
  - right; right; vm_compute; discriminate.
  - exists σ'. split; [exact Hrun|]. split; [exact Hload|].
    rewrite Hrest; [vm_compute; reflexivity|]. right. vm_compute. discriminate.
Defined.

(** X5.  Copying a second time into the same destination, here through
    [initializeWithCopy], changes nothing: the memory and the objects after
    the second trivial copy are those after the first. *)
Theorem trivial_copy_twice
    (fuel : nat) (σ : State) (pdst psrc : ptr) (dst src : Value) (B : list byte) :
  objs σ !! pdst = Some dst ->
  objs σ !! psrc = Some src ->
  copy (witnessTable src) = Some trivialCopy ->
  load_bytes (mem σ) (value src) (N.to_nat (sizeInBytes (typeMetadata dst))) = Some B ->
  is_Some (load_bytes (mem σ) (value dst) (N.to_nat (sizeInBytes (typeMetadata dst)))) ->
  disjoint (value dst) (value src) (N.to_nat (sizeInBytes (typeMetadata dst))) ->
  exists σ1 σ2,
    run (S fuel) (Value_copy psrc pdst) σ = Done tt σ1 /\
    run (S fuel) (initializeWithCopy pdst psrc) σ1 = Done tt σ2 /\
    mem σ2 = mem σ1 /\
    objs σ2 = objs σ1 /\
    calls σ2 = calls σ ++ [InvCopy pdst psrc; InvCopy pdst psrc].
Proof.
  intros Hd Hs Hc Hb Hv Hdis.
  pose proof (load_bytes_length _ _ _ _ Hb) as Hlen.
  eexists _, _. split; [|split].
  - rewrite (Value_copy_dispatch _ _ _ _ src trivialCopy) by done.
    rewrite (run_trivialCopy σ pdst psrc dst src B) by done.
    reflexivity.
  - unfold initializeWithCopy.
    rewrite (Value_copy_dispatch _ _ _ _ src trivialCopy) by done.
    rewrite (run_trivialCopy
               (set_mem (store_bytes (mem σ) (value dst) B)
                  (record_call (InvCopy pdst psrc) σ))
               pdst psrc dst src B); try done.
    + cbn [mem set_mem]. by rewrite load_bytes_store_disjoint.
    + cbn [mem set_mem]. rewrite <- Hlen at 1.
      rewrite load_bytes_store_same. eauto.
  - cbn [mem objs calls set_mem record_call].
    rewrite store_bytes_twice, <- app_assoc. done.
Qed.

Lemma trivial_copy_twice_witness :
  exists σ1 σ2,
    run 1 (Value_copy 100 200) (pair_state trivialWitnessTable) = Done tt σ1 /\
    run 1 (initializeWithCopy 200 100) σ1 = Done tt σ2 /\
    mem σ2 = mem σ1.
Proof.
  destruct (trivial_copy_twice 0 (pair_state trivialWitnessTable) 200 100
              (mkValue pairMetadata trivialWitnessTable 2000)
              (mkValue pairMetadata trivialWitnessTable 1000) bytes_3_4)
    as (σ1 & σ2 & H1 & H2 & Hm & _).
  - vm_compute; reflexivity.
  - vm_compute; reflexivity.
  - reflexivity.
  - vm_compute; reflexivity.
  - eexists; vm_compute; reflexivity.
  - right; right; vm_compute; discriminate.
  - exists σ1, σ2. repeat split; assumption.
Defined.

(** X6.  A chain of moves, from [a] into [b] and from [b] into [c], for
    values whose move operation is the trivial move and whose destroy
    operations return at once: the bytes of [a] arrive in [c], and each hop
    dispatches its move and then, inside [trivialMove], the destroy of its
    source, so the record gains four entries. *)
Theorem trivial_move_chain
    (fuel : nat) (σ : State) (pa pb pc : ptr) (a b c : Value) (B : list byte)
    (ga gb : ptr -> Code unit) :
  objs σ !! pa = Some a ->
  objs σ !! pb = Some b ->
  objs σ !! pc = Some c ->
  move (witnessTable a) = Some trivialMove ->
  move (witnessTable b) = Some trivialMove ->
  destroy (witnessTable a) = Some ga ->
  destroy (witnessTable b) = Some gb ->
  (forall τ, run fuel (ga pa) τ = Done tt τ) ->
  (forall τ, run fuel (gb pb) τ = Done tt τ) ->
  sizeInBytes (typeMetadata c) = sizeInBytes (typeMetadata b) ->
  load_bytes (mem σ) (value a) (N.to_nat (sizeInBytes (typeMetadata b))) = Some B ->
  is_Some (load_bytes (mem σ) (value b) (N.to_nat (sizeInBytes (typeMetadata b)))) ->
  is_Some (load_bytes (mem σ) (value c) (N.to_nat (sizeInBytes (typeMetadata b)))) ->
  disjoint (value b) (value a) (N.to_nat (sizeInBytes (typeMetadata b))) ->
  disjoint (value c) (value b) (N.to_nat (sizeInBytes (typeMetadata b))) ->
  exists σ',
    run (S (S fuel)) (_ ← silt_moveValue pb pa; silt_moveValue pc pb) σ = Done pc σ' /\
    load_bytes (mem σ') (value c) (N.to_nat (sizeInBytes (typeMetadata b))) = Some B /\
    objs σ' = objs σ /\
    calls σ' = calls σ ++ [InvMove pb pa; InvDestroy pa; InvMove pc pb; InvDestroy pb].
Proof.
  intros Ha Hb Hc Hma Hmb Hda Hdb Hga Hgb Hsz HB Hvb Hvc Hab Hbc.
  pose proof (load_bytes_length _ _ _ _ HB) as Hlen.
  eexists. split; [|split; [|split]].
  - unfold mbind at 1. unfold Code_bind. rewrite run_bind.
    rewrite (silt_moveValue_dispatch _ _ _ _ a trivialMove) by done.
    rewrite (run_trivialMove σ pb pa b a B) with (g := ga) by done.
    cbn [and_then].
    rewrite (silt_moveValue_dispatch _ _ _ _ b trivialMove) by done.
    rewrite (run_trivialMove
               (record_call (InvDestroy pa)
                  (set_mem (store_bytes (mem σ) (value b) B)
                     (record_call (InvMove pb pa) σ)))
               pc pb c b B) with (g := gb);
      try done; rewrite ?Hsz; cbn [mem set_mem record_call].
    + rewrite <- Hlen at 1. apply load_bytes_store_same.
    + rewrite load_bytes_store_disjoint; [done| |done]. by apply disjoint_sym.
    + done.
  - cbn [mem set_mem record_call]. rewrite <- Hlen at 1. apply load_bytes_store_same.
  - done.
  - cbn [calls set_mem record_call]. by rewrite <- !app_assoc.
Qed.

Lemma trivial_move_chain_witness :
  exists σ',
    run 2 (_ ← silt_moveValue 200 100; silt_moveValue 300 200) chain_state
      = Done 300 σ' /\
    load_bytes (mem σ') 3000 16 = Some bytes_3_4 /\
    calls σ' = [InvMove 200 100; InvDestroy 100; InvMove 300 200; InvDestroy 200].
Proof.
  destruct (trivial_move_chain 0 chain_state 100 200 300
              (mkValue pairMetadata returningDestroyWitnessTable 1000)
              (mkValue pairMetadata returningDestroyWitnessTable 2000)
              (mkValue pairMetadata returningDestroyWitnessTable 3000) bytes_3_4
              returningDestroy returningDestroy)
    as (σ' & Hrun & Hload & _ & Hcalls).
  - vm_compute; reflexivity.
  - vm_compute; reflexivity.
  - vm_compute; reflexivity.
  - reflexivity.
  - reflexivity.
  - reflexivity.
  - reflexivity.
  - intros; apply run_returningDestroy.
  - intros; apply run_returningDestroy.
  - reflexivity.
  - vm_compute; reflexivity.
  - eexists; vm_compute; reflexivity.
  - eexists; vm_compute; reflexivity.
  - right; right; vm_compute; discriminate.
  - right; right; vm_compute; discriminate.
  - exists σ'. repeat split; assumption.
Defined.

(** *** [silt_destroyValue] *)



(** X8.  Whatever the table, once [silt_destroyValue] has returned the
    handle is dead: destroying it again, copying or moving from it, and
    reading its storage pointer are all undefined. *)
Theorem silt_destroyValue_then_dead
    (fuel fuel' : nat) (σ σ' : State) (p q : ptr) :
  silt_destroyValue fuel p σ = Done tt σ' ->
  objs σ' !! p = None /\
  silt_destroyValue (S fuel') p σ' = Undefined /\
  run (S fuel') (silt_copyValue q p) σ' = Undefined /\
  run (S fuel') (silt_moveValue q p) σ' = Undefined /\
  run fuel' (getValue p) σ' = Undefined.
Proof.
  unfold silt_destroyValue at 1.
  destruct (run fuel (Value_destroy p) σ) as [[] σ1| | |] eqn:E; cbn [and_then]; [|done..].
  unfold delete_Value. destruct (objs σ1 !! p) as [v|]; [|done].
  intros [= <-]. cbn [objs].
  assert (Hgone : delete p (objs σ1) !! p = None) by apply lookup_delete_eq.
  split; [done|]. split; [|split; [|split]].
  - unfold silt_destroyValue, Value_destroy. rewrite run_unfold. cbn [objs].
    by rewrite Hgone.
  - unfold silt_copyValue, Value_copy, mbind, mret, Code_bind, Code_ret.
    cbn [bind]. rewrite run_unfold. cbn [objs]. by rewrite Hgone.
  - unfold silt_moveValue, Value_move, mbind, mret, Code_bind, Code_ret.
    cbn [bind]. rewrite run_unfold. cbn [objs]. by rewrite Hgone.
  - unfold getValue. rewrite run_unfold. cbn [objs]. by rewrite Hgone.
Qed.

Lemma silt_destroyValue_then_dead_witness :
  exists σ',
    silt_destroyValue 1 100 (pair_state returningDestroyWitnessTable) = Done tt σ' /\
    silt_destroyValue 1 100 σ' = Undefined /\
    run 1 (silt_copyValue 200 100) σ' = Undefined.
Proof.
  destruct (silt_destroyValue 1 100 (pair_state returningDestroyWitnessTable))
    as [[] σ'| | |] eqn:E; try (vm_compute in E; discriminate E).
  destruct (silt_destroyValue_then_dead 1 0 _ σ' 100 200 E) as (_ & H1 & H2 & _).
  exists σ'. repeat split; assumption.
Defined.

(** X9.  Every entry point that dispatches the destroy of a value bound to
    [trivialDestroy] is undefined, whatever else the state holds:
    [silt_destroyValue] (so [delete] is not reached), and, when the move
    slot holds the trivial move, [silt_moveValue] and
    [initializeWithTake], which return at no call depth. *)
Theorem trivialDestroy_paths_undefined
    (fuel : nat) (σ : State) (pdst psrc : ptr) (src : Value) :
  objs σ !! psrc = Some src ->
  destroy (witnessTable src) = Some trivialDestroy ->
  silt_destroyValue (S fuel) psrc σ = Undefined /\
  (move (witnessTable src) = Some trivialMove ->
   (forall r σ', run fuel (silt_moveValue pdst psrc) σ <> Done r σ') /\
   (forall r σ', run fuel (initializeWithTake pdst psrc) σ <> Done r σ')).
Proof.
  intros Hs Hd. split.
  - unfold silt_destroyValue. by rewrite (Value_destroy_trivial _ _ _ src).
  - intros Hm. split; intros r σ'.
    + unfold silt_moveValue, Value_move, mbind, mret, Code_bind, Code_ret.
      cbn [bind]. rewrite run_unfold.
      destruct fuel as [|fuel]; [done|]. rewrite Hs, Hm.
      destruct (run fuel (trivialMove pdst psrc) _) as [x σ1| | |] eqn:E;
        cbn [and_then]; [|done..].
      by apply (trivialMove_never_returns _ _ _ _ src) in E.
    + unfold initializeWithTake, Value_move, mbind, Code_bind.
      cbn [bind]. rewrite run_unfold.
      destruct fuel as [|fuel]; [done|]. rewrite Hs, Hm.
      destruct (run fuel (trivialMove pdst psrc) _) as [x σ1| | |] eqn:E;
        cbn [and_then]; [|done..].
      by apply (trivialMove_never_returns _ _ _ _ src) in E.
Qed.

Lemma trivialDestroy_paths_undefined_witness :
  silt_destroyValue 1 100 (pair_state trivialWitnessTable) = Undefined /\
  run 2 (silt_moveValue 200 100) (pair_state trivialWitnessTable) = Undefined.
Proof.
  destruct (trivialDestroy_paths_undefined 0 (pair_state trivialWitnessTable) 200 100
              (mkValue pairMetadata trivialWitnessTable 1000)) as [Hd _].
  - vm_compute; reflexivity.
  - reflexivity.
  - split; [exact Hd|]. vm_compute; reflexivity.
Defined.

(** X15.  The slots of a table are [std::function]s and may be unbound.
    When the slot that an entry point needs is unbound in the table of the
    object it dispatches on, the call throws [std::bad_function_call]: the
    copy and the move on the source's table, the destroy on the value's own
    table, in which case [delete] is not reached. *)
Theorem unbound_slot_throws
    (fuel : nat) (σ : State) (pdst psrc : ptr) (src : Value) :
  objs σ !! psrc = Some src ->
  (copy (witnessTable src) = None ->
   run (S fuel) (silt_copyValue pdst psrc) σ = BadFunctionCall /\
   run (S fuel) (initializeWithCopy pdst psrc) σ = BadFunctionCall) /\
  (move (witnessTable src) = None ->
   run (S fuel) (silt_moveValue pdst psrc) σ = BadFunctionCall /\
   run (S fuel) (initializeWithTake pdst psrc) σ = BadFunctionCall) /\
  (destroy (witnessTable src) = None ->
   silt_destroyValue (S fuel) psrc σ = BadFunctionCall).
Proof.
  intros Hs. split; [|split]; intros Hf.
  - unfold silt_copyValue, initializeWithCopy, Value_copy, mbind, mret,
      Code_bind, Code_ret. cbn [bind].
    by rewrite !run_unfold, Hs, Hf.
  - unfold silt_moveValue, initializeWithTake, Value_move, Value_destroy, mbind,
      mret, Code_bind, Code_ret. cbn [bind].
    by rewrite !run_unfold, Hs, Hf.
  - unfold silt_destroyValue, Value_destroy. by rewrite run_unfold, Hs, Hf.
Qed.

(** The 8-byte word of [mismatch_state] has the unbound table. *)
Lemma unbound_slot_throws_witness :
  run 1 (silt_copyValue 100 200) mismatch_state = BadFunctionCall /\
  run 1 (silt_moveValue 100 200) mismatch_state = BadFunctionCall /\
  silt_destroyValue 1 200 mismatch_state = BadFunctionCall.
Proof.
  destruct (unbound_slot_throws 0 mismatch_state 100 200
              (mkValue wordMetadata emptyWitnessTable 2000)) as (Hc & Hm & Hd).
  - vm_compute; reflexivity.
  - split; [exact (proj1 (Hc eq_refl))|].
    split; [exact (proj1 (Hm eq_refl))|exact (Hd eq_refl)].
Defined.

End RuntimeBoundaryFacts.

(** ** More facts about Sources/Ferrite *)

Module FerriteHeapFacts.
Import Ferrite FerriteHeap FerriteFacts.

Section Allocator.

Context {W : Type}.
Variable malloc : N -> gmap N N -> ptr * gmap N N.
Hypothesis malloc_ok : malloc_contract malloc.

(** What a returning [silt_alloc] did. *)
Lemma silt_alloc_returned (n : N) (σ σ1 : Process W) (p : ptr) :
  silt_alloc malloc n σ = Returned p σ1 ->
  exists b,
    p = HeapAddr b /\
    heap σ !! b = None /\
    σ1 = {| world := world σ; heap := <[b := n]> (heap σ);
            stderr := stderr σ; objects := objects σ |}.
Proof.
  pose proof (malloc_ok n (heap σ)) as Hc.
  destruct (malloc n (heap σ)) as [[|g|b] h'] eqn:E; [| done |].
  - by rewrite (silt_alloc_failure _ _ _ _ E).
  - destruct Hc as [Hfree ->]. rewrite (silt_alloc_success _ _ _ _ _ E).
    intros [= <- <-]. by exists b.
Qed.

(** X10.  Two allocations that both return give two different pointers,
    neither of them null; afterwards both blocks are in use with the sizes
    that were asked for, and nothing but the heap has changed. *)
Theorem silt_alloc_twice_distinct
    (n1 n2 : N) (σ σ1 σ2 : Process W) (p1 p2 : ptr) :
  silt_alloc malloc n1 σ = Returned p1 σ1 ->
  silt_alloc malloc n2 σ1 = Returned p2 σ2 ->
  p1 <> p2 /\
  exists b1 b2,
    p1 = HeapAddr b1 /\ p2 = HeapAddr b2 /\
    heap σ2 !! b1 = Some n1 /\
    heap σ2 !! b2 = Some n2 /\
    world σ2 = world σ /\ stderr σ2 = stderr σ /\ objects σ2 = objects σ.
Proof.
  intros H1 H2.
  apply silt_alloc_returned in H1 as (b1 & -> & Hf1 & ->).
  apply silt_alloc_returned in H2 as (b2 & -> & Hf2 & ->).
  cbn [heap world stderr objects] in *.
  assert (Hne : b2 <> b1).
  { intros ->. by rewrite lookup_insert_eq in Hf2. }
  split; [congruence|]. exists b1, b2. repeat split.
  - rewrite lookup_insert_ne by done. apply lookup_insert_eq.
  - apply lookup_insert_eq.
Qed.

(** X11.  Deallocating what [silt_alloc] has just returned gives back the
    process as it was before the allocation. *)
Theorem silt_alloc_dealloc_roundtrip (n : N) (σ σ1 : Process W) (p : ptr) :
  silt_alloc malloc n σ = Returned p σ1 ->
  silt_dealloc p σ1 = Returned tt σ.
Proof.
  intros H. apply silt_alloc_returned in H as (b & -> & Hf & ->).
  unfold silt_dealloc, call_free. cbn [heap world stderr objects].
  rewrite lookup_insert_eq, delete_insert_id by done. by destruct σ.
Qed.

(** X12.  Deallocating the same pointer twice is undefined: the first
    [silt_dealloc] releases the block, the second finds none. *)
Theorem silt_dealloc_twice_undefined (n : N) (σ σ1 : Process W) (p : ptr) :
  silt_alloc malloc n σ = Returned p σ1 ->
  (_ ← silt_dealloc p; silt_dealloc p) σ1 = Undefined.
Proof.
  intros H. apply silt_alloc_returned in H as (b & -> & Hf & ->).
  unfold mbind, M_bind, silt_dealloc, call_free. cbn [heap world stderr objects].
  rewrite lookup_insert_eq. cbn [heap]. by rewrite lookup_delete_eq.
Qed.

End Allocator.

Lemma silt_alloc_twice_distinct_witness :
  exists p1 p2 σ1 σ2,
    silt_alloc (bounded_malloc 100) 10 (initial tt) = Returned p1 σ1 /\
    silt_alloc (bounded_malloc 100) 20 σ1 = Returned p2 σ2 /\
    p1 <> p2.
Proof.
  destruct (silt_alloc (bounded_malloc 100) 10 (initial tt))
    as [p1 σ1| | |] eqn:E1; try (vm_compute in E1; discriminate E1).
  destruct (silt_alloc (bounded_malloc 100) 20 σ1)
    as [p2 σ2| | |] eqn:E2;
    try (vm_compute in E1; injection E1 as <- <-; vm_compute in E2; discriminate E2).
  exists p1, p2, σ1, σ2. split; [reflexivity|]. split; [exact E2|].
  exact (proj1 (silt_alloc_twice_distinct (bounded_malloc 100)
                  (bounded_malloc_contract 100) 10 20 _ _ _ _ _ E1 E2)).
Defined.

Lemma silt_alloc_dealloc_roundtrip_witness :
  exists p σ1,
    silt_alloc (bounded_malloc 100) 10 (initial tt) = Returned p σ1 /\
    silt_dealloc p σ1 = Returned tt (initial tt).
Proof.
  destruct (silt_alloc (bounded_malloc 100) 10 (initial tt))
    as [p σ1| | |] eqn:E; try (vm_compute in E; discriminate E).
  exists p, σ1. split; [reflexivity|].
  exact (silt_alloc_dealloc_roundtrip (bounded_malloc 100)
           (bounded_malloc_contract 100) 10 _ _ _ E).
Defined.

Lemma silt_dealloc_twice_undefined_witness :
  exists p σ1,
    silt_alloc (bounded_malloc 100) 10 (initial tt) = Returned p σ1 /\
    (_ ← silt_dealloc p; silt_dealloc p) σ1 = Undefined.
Proof.
  destruct (silt_alloc (bounded_malloc 100) 10 (initial tt))
    as [p σ1| | |] eqn:E; try (vm_compute in E; discriminate E).
  exists p, σ1. split; [reflexivity|].
  exact (silt_dealloc_twice_undefined (bounded_malloc 100)
           (bounded_malloc_contract 100) 10 _ _ _ E).
Defined.

(** *** The empty box and [ManagedObject::destroy] *)

(** X13.  As long as the singleton is as it was initialised, the handle that
    [silt_allocEmptyBox] returns can be neither copied nor destroyed, both
    closures being empty: [copy] and [destroy] throw and leave the process
    as it is.  The handle is the address of a static object, so handing it
    to [silt_dealloc] is undefined. *)
Theorem empty_box_handle_unusable {W : Type}
    (copy_target : N -> ptr -> @M W ptr) (destroy_target : N -> ptr -> @M W unit)
    (order : ArgOrder) (σ σ' : Process W) (p : ptr) :
  objects σ !! GlobalAddr g_EmptyBoxStorage = Some (header _EmptyBoxStorage) ->
  silt_allocEmptyBox σ = Returned p σ' ->
  ManagedObject_copy copy_target order p σ' = Thrown σ' /\
  ManagedObject_destroy destroy_target p σ' = Thrown σ' /\
  silt_dealloc p σ' = Undefined.
Proof.
  intros Hs [= <- <-].
  unfold ManagedObject_copy, ManagedObject_destroy, mbind, M_bind, deref.
  rewrite Hs. done.
Qed.

Lemma empty_box_handle_unusable_witness :
  exists p σ',
    silt_allocEmptyBox cell_process = Returned p σ' /\
    ManagedObject_copy cell_copy_target left_to_right p σ' = Thrown σ' /\
    ManagedObject_destroy cell_destroy_target p σ' = Thrown σ'.
Proof.
  destruct (empty_box_handle_unusable cell_copy_target cell_destroy_target
              left_to_right cell_process cell_process
              (GlobalAddr g_EmptyBoxStorage)) as (Hc & Hd & _).
  - vm_compute; reflexivity.
  - reflexivity.
  - exists (GlobalAddr g_EmptyBoxStorage), cell_process. repeat split; assumption.
Defined.

End FerriteHeapFacts.
